(** * Weather dashboard: the daily-forecast summarizer and the search flow

    A shallow embedding of [src/App.tsx]: the pure function [pickDaily], the
    recent-city list ([saveRecent], the [recent] initializer) and the
    asynchronous callback [runSearch], followed by the properties that the
    specification states about them; then the rest of the component (the
    event handlers, the hook [useTheme], [degToCompass]) and further
    properties of the whole.

    Conventions.
    - A JavaScript string is a [string]; every character stands for the
      UTF-16 code unit of the same value (U+0000 to U+00FF).
    - A JavaScript [number] is [number] below: NaN, the two infinities, or a
      finite value carried as a rational.
    - A thrown exception is a [completion] that is not [Normal].
    - Two interfaces of the program may name a field alike ([name], [dt],
      [main], [weather], [wind]); a record field here is a function of the
      whole file, so the later record prefixes the name. *)

From Stdlib Require Import Ascii String QArith Qabs Qround.
From Stdlib Require PrimFloat FloatOps SpecFloat Uint63.
From stdpp Require Import gmap strings list fin_maps sorting.

Set Default Proof Using "Type".

(** ** JavaScript values used by the program *)

Module Js.

(** Exceptions: [new Error(msg)] and the errors the engine or the
    platform raises by itself.  Only [message] is ever read; for an error
    of the engine it is the engine's wording, on which nothing below
    depends. *)
Inductive exn : Type :=
| Error (message : string)
| TypeError (message : string)
| SyntaxError (message : string).

Definition message (e : exn) : string :=
  match e with
  | Error m | TypeError m | SyntaxError m => m
  end.

(** The outcome of evaluating a piece of code: a value, or an exception
    that propagates. *)
Inductive completion (A : Type) : Type :=
| Normal (a : A)
| Throw (e : exn).
Arguments Normal {A} a.
Arguments Throw {A} e.

#[global] Instance completion_ret : MRet completion := @Normal.
#[global] Instance completion_bind : MBind completion := λ A B k c,
  match c with
  | Normal a => k a
  | Throw e => Throw e
  end.

(** Numbers. *)
Inductive number : Type :=
| NaN
| Inf (negative : bool)
| Finite (q : Q).

Definition Infinity : number := Inf false.

(** [a - b].  On finite operands the rational difference; it is the exact
    result wherever the program subtracts (12 minus an hour read from two
    characters). *)
Definition sub (a b : number) : number :=
  match a, b with
  | NaN, _ | _, NaN => NaN
  | Inf s, Inf t => if Bool.eqb s t then NaN else Inf s
  | Inf s, Finite _ => Inf s
  | Finite _, Inf t => Inf (negb t)
  | Finite x, Finite y => Finite (x - y)
  end.

(** [Math.abs]. *)
Definition Math_abs (a : number) : number :=
  match a with
  | NaN => NaN
  | Inf _ => Inf false
  | Finite x => Finite (Qabs x)
  end.

Definition Qltb (x y : Q) : bool :=
  (Qnum x * QDen y <? Qnum y * QDen x)%Z.

(** [a < b]: false as soon as one side is NaN. *)
Definition lt (a b : number) : bool :=
  match a, b with
  | NaN, _ | _, NaN => false
  | Inf s, Inf t => s && negb t
  | Inf s, Finite _ => s
  | Finite _, Inf t => negb t
  | Finite x, Finite y => Qltb x y
  end.

(** White space and line terminators below U+0100, as [trim] and the
    string-to-number conversion strip them. *)
Definition is_space (c : ascii) : bool :=
  let n := N_of_ascii c in
  ((9 <=? n) && (n <=? 13) || (n =? 32) || (n =? 160))%N.

Fixpoint trimStart (s : string) : string :=
  match s with
  | EmptyString => EmptyString
  | String c rest => if is_space c then trimStart rest else s
  end.

Fixpoint trimEnd (s : string) : string :=
  match s with
  | EmptyString => EmptyString
  | String c rest =>
      match trimEnd rest with
      | EmptyString => if is_space c then EmptyString else String c EmptyString
      | rest' => String c rest'
      end
  end.

(** [s.trim()]. *)
Definition trim (s : string) : string := trimEnd (trimStart s).

(** [s.split(sep)] for a one-character separator: the segment that ends
    at the first separator, and the segments after it. *)
Fixpoint split_on (sep : ascii) (s : string) : string * list string :=
  match s with
  | EmptyString => (EmptyString, [])
  | String c rest =>
      let '(seg, segs) := split_on sep rest in
      if Ascii.eqb c sep then (EmptyString, seg :: segs)
      else (String c seg, segs)
  end.

Definition split (sep : ascii) (s : string) : list string :=
  let '(seg, segs) := split_on sep s in seg :: segs.

(** [s.slice(0, n)]. *)
Definition slice0 (n : nat) (s : string) : string := substring 0 n s.

(** Decimal digits. *)
Definition digit (c : ascii) : option Z :=
  let n := N_of_ascii c in
  if ((48 <=? n) && (n <=? 57))%N then Some (Z.of_N n - 48)%Z else None.

(** [Number(s)] on the strings that [slice(0, 2)] yields.  With at most
    two code units the numeric literal, once white space is stripped, is
    empty, a digit, two digits, a signed digit, or a digit next to a dot;
    no exponent, radix prefix or [Infinity] fits, and anything else is
    NaN. *)
Definition Number (s : string) : number :=
  match list_ascii_of_string (trim s) with
  | [] => Finite 0
  | [c] =>
      match digit c with
      | Some d => Finite (inject_Z d)
      | None => NaN
      end
  | [c1; c2] =>
      match digit c1, digit c2 with
      | Some d1, Some d2 => Finite (inject_Z (10 * d1 + d2))
      | None, Some d2 =>
          if Ascii.eqb c1 "+" then Finite (inject_Z d2)
          else if Ascii.eqb c1 "-" then Finite (inject_Z (- d2))
          else if Ascii.eqb c1 "." then Finite (d2 # 10)%Q
          else NaN
      | Some d1, None =>
          if Ascii.eqb c2 "." then Finite (inject_Z d1) else NaN
      | None, None => NaN
      end
  | _ => NaN
  end.

(** The property names every object inherits from [Object.prototype]:
    reading one of them on a fresh [{}] yields a function (or, for
    [__proto__], the prototype itself), never [undefined]. *)
Definition Object_prototype_keys : list string :=
  [ "constructor"; "__defineGetter__"; "__defineSetter__"; "hasOwnProperty";
    "__lookupGetter__"; "__lookupSetter__"; "isPrototypeOf";
    "propertyIsEnumerable"; "toString"; "valueOf"; "__proto__";
    "toLocaleString" ]%string.

End Js.

Import Js.

(** ** Data model (the interfaces of [App.tsx]) *)

Inductive Units : Type := metric | imperial.

Record Geo : Type := {
  name : string;
  lat : number;
  lon : number;
  country : string;
  state : option string
}.

Record Condition : Type := {
  id : number;
  main : string;
  description : string;
  icon : string
}.

Record Wind : Type := { speed : number; deg : number }.

Record Sys : Type := { sys_country : string; sunrise : number; sunset : number }.

Record MainNow : Type := {
  now_temp : number;
  now_feels_like : number;
  now_humidity : number;
  pressure : number;
  temp_min : number;
  temp_max : number
}.

Record WeatherNow : Type := {
  now_name : string;
  now_dt : number;
  sys : Sys;
  now_weather : list Condition;
  now_main : MainNow;
  now_wind : Wind;
  visibility : number
}.

Record MainFc : Type := { temp : number; feels_like : number; humidity : number }.

Record ForecastItem : Type := {
  dt : number;
  dt_txt : string;
  fc_main : MainFc;
  weather : list Condition;
  wind : Wind
}.

Record City : Type := { city_name : string; city_country : string; timezone : number }.

Record ForecastRes : Type := { list_ : list ForecastItem; city_ : City }.

(** ** [pickDaily] *)

(** [item.dt_txt.split(' ')[0]]: the text before the first space. *)
Definition day_of (item : ForecastItem) : string :=
  default EmptyString (split " " (dt_txt item) !! 0%nat).

(** [Number(it.dt_txt.split(' ')[1].slice(0, 2))]: without a space in
    [dt_txt] the second segment is [undefined] and [.slice] throws. *)
Definition hour_of (it : ForecastItem) : completion number :=
  match split " " (dt_txt it) !! 1%nat with
  | None => Throw (TypeError "Cannot read properties of undefined (reading 'slice')")
  | Some time => Normal (Number (slice0 2 time))
  end.

(** What [groups[day]] evaluates to on the object literal [groups]. *)
Inductive group_lookup : Type :=
| Undefined
| Inherited
| Items (items : list ForecastItem).

Definition get_group (groups : gmap string (list ForecastItem)) (day : string)
  : group_lookup :=
  match groups !! day with
  | Some items => Items items
  | None => if bool_decide (day ∈ Object_prototype_keys) then Inherited else Undefined
  end.

(** The first loop: [groups[day] ??= []; groups[day].push(item)].  An
    inherited property is not nullish, is left as it is, and has no
    [push]. *)
Fixpoint group_by_day (lst : list ForecastItem)
    (groups : gmap string (list ForecastItem))
  : completion (gmap string (list ForecastItem)) :=
  match lst with
  | [] => Normal groups
  | item :: rest =>
      let day := day_of item in
      match get_group groups day with
      | Undefined => group_by_day rest (<[day := [item]]> groups)
      | Items items => group_by_day rest (<[day := items ++ [item]]> groups)
      | Inherited => Throw (TypeError "groups[day].push is not a function")
      end
  end.

(** The inner loop over one day's items. *)
Fixpoint closest_to_noon (items : list ForecastItem) (best : ForecastItem)
    (bestDiff : number) : completion ForecastItem :=
  match items with
  | [] => Normal best
  | it :: rest =>
      hour ← hour_of it;
      let diff := Math_abs (sub (Finite 12) hour) in
      if lt diff bestDiff then closest_to_noon rest it diff
      else closest_to_noon rest best bestDiff
  end.

(** [Object.keys(groups).sort()]: the keys in ascending order of their code
    units.  The order in which [Object.keys] lists them is irrelevant, the
    keys being distinct. *)
Definition sorted_keys (groups : gmap string (list ForecastItem)) : list string :=
  merge_sort String.le (elements (dom groups)).

(** The outer loop: one [results.push(best)] per day.  Every array stored
    in [groups] has received a [push], so [items[0]] is an item; the second
    branch is never taken (lemma [group_by_day_nonempty]). *)
Fixpoint pick_each_day (groups : gmap string (list ForecastItem))
    (days : list string) (results : list ForecastItem)
  : completion (list ForecastItem) :=
  match days with
  | [] => Normal results
  | day :: rest =>
      match groups !! day with
      | Some ((first :: _) as items) =>
          best ← closest_to_noon items first Infinity;
          pick_each_day groups rest (results ++ [best])
      | _ => pick_each_day groups rest results
      end
  end.

(** The array [results] once both loops have run. *)
Definition daily_results (lst : list ForecastItem) : completion (list ForecastItem) :=
  groups ← group_by_day lst ∅;
  pick_each_day groups (sorted_keys groups) [].

Definition pickDaily (lst : list ForecastItem) : completion (list ForecastItem) :=
  results ← daily_results lst;
  Normal (take 5 results).

(** ** JSON text, as [localStorage] holds it *)

Module JSON.

(** A parsed JSON value.  A number keeps the text of its literal; a string
    is its sequence of UTF-16 code units, which an escape [\uXXXX] may take
    above U+00FF; an object keeps its members in the order of the text. *)
#[warnings="-register-all"]
Inductive value : Type :=
| Null
| Bool (b : bool)
| Num (literal : string)
| Str (units : list N)
| Arr (items : list value)
| Obj (members : list (list N * value)).

(** The double quote, U+0022. *)
Definition dquote : ascii := "034"%char.

Definition is_ws (c : ascii) : bool :=
  let n := N_of_ascii c in ((n =? 32) || (n =? 9) || (n =? 10) || (n =? 13))%N.

Fixpoint skip_ws (cs : list ascii) : list ascii :=
  match cs with
  | c :: rest => if is_ws c then skip_ws rest else cs
  | [] => []
  end.

Definition is_digit (c : ascii) : bool :=
  let n := N_of_ascii c in ((48 <=? n) && (n <=? 57))%N.

Definition hex_digit (c : ascii) : option N :=
  let n := N_of_ascii c in
  if ((48 <=? n) && (n <=? 57))%N then Some (n - 48)%N
  else if ((65 <=? n) && (n <=? 70))%N then Some (n - 55)%N
  else if ((97 <=? n) && (n <=? 102))%N then Some (n - 87)%N
  else None.

(** The longest run of digits at the head of [cs], and what follows it. *)
Fixpoint digits (cs : list ascii) : list ascii * list ascii :=
  match cs with
  | c :: rest =>
      if is_digit c then let '(ds, rest') := digits rest in (c :: ds, rest')
      else ([], cs)
  | [] => ([], [])
  end.

(** [int frac? exp?] after the optional minus sign. *)
Definition number_body (cs : list ascii) : option (list ascii * list ascii) :=
  let '(int, rest) := digits cs in
  match int with
  | [] => None
  | d :: more =>
      if Ascii.eqb d "0" && negb (bool_decide (more = [])) then None
      else
        frac ← match rest with
               | "."%char :: rest1 =>
                   let '(ds, rest2) := digits rest1 in
                   if bool_decide (ds = []) then None
                   else Some ("."%char :: ds, rest2)
               | _ => Some ([], rest)
               end;
        let '(fr, rest) := frac in
        expo ← match rest with
               | e :: rest1 =>
                   if Ascii.eqb e "e" || Ascii.eqb e "E" then
                     let '(sign, rest2) :=
                       match rest1 with
                       | s :: rest2 =>
                           if Ascii.eqb s "+" || Ascii.eqb s "-" then ([s], rest2)
                           else ([], rest1)
                       | [] => ([], rest1)
                       end in
                     let '(ds, rest3) := digits rest2 in
                     if bool_decide (ds = []) then None
                     else Some (e :: sign ++ ds, rest3)
                   else Some ([], rest)
               | [] => Some ([], rest)
               end;
        let '(ex, rest) := expo in
        Some (int ++ fr ++ ex, rest)
  end.

Definition number (cs : list ascii) : option (value * list ascii) :=
  match cs with
  | "-"%char :: rest =>
      '(body, rest') ← number_body rest;
      Some (Num (string_of_list_ascii ("-"%char :: body)), rest')
  | _ =>
      '(body, rest') ← number_body cs;
      Some (Num (string_of_list_ascii body), rest')
  end.

(** The characters of a string literal after its opening quote, up to and
    including the closing quote. *)
Fixpoint chars (cs : list ascii) : option (list N * list ascii) :=
  match cs with
  | [] => None
  | c :: rest =>
      if Ascii.eqb c dquote then Some ([], rest)
      else if (N_of_ascii c <? 32)%N then None
      else if Ascii.eqb c "\" then
        match rest with
        | e :: rest1 =>
            let simple (u : N) := '(us, rest2) ← chars rest1; Some (u :: us, rest2) in
            if Ascii.eqb e dquote then simple 34%N
            else if Ascii.eqb e "\" then simple 92%N
            else if Ascii.eqb e "/" then simple 47%N
            else if Ascii.eqb e "b" then simple 8%N
            else if Ascii.eqb e "f" then simple 12%N
            else if Ascii.eqb e "n" then simple 10%N
            else if Ascii.eqb e "r" then simple 13%N
            else if Ascii.eqb e "t" then simple 9%N
            else if Ascii.eqb e "u" then
              match rest1 with
              | h1 :: h2 :: h3 :: h4 :: rest2 =>
                  a ← hex_digit h1; b ← hex_digit h2;
                  c ← hex_digit h3; d ← hex_digit h4;
                  '(us, rest3) ← chars rest2;
                  Some ((((a * 16 + b) * 16 + c) * 16 + d)%N :: us, rest3)
              | _ => None
              end
            else None
        | [] => None
        end
      else '(us, rest') ← chars rest; Some (N_of_ascii c :: us, rest')
  end.

Definition literal (word : string) (v : value) (cs : list ascii)
  : option (value * list ascii) :=
  let w := list_ascii_of_string word in
  if bool_decide (take (length w) cs = w) then Some (v, drop (length w) cs) else None.

(** One value, white space before it skipped.  [fuel] bounds the depth of
    the calls; [parse] starts with more than any text can use, every call
    but the first being paid for by a character of the text. *)
Fixpoint parse_value (fuel : nat) (cs : list ascii) : option (value * list ascii) :=
  match fuel with
  | O => None
  | S fuel =>
      match skip_ws cs with
      | [] => None
      | c :: rest =>
          if Ascii.eqb c "n" then literal "null" Null (c :: rest)
          else if Ascii.eqb c "t" then literal "true" (Bool true) (c :: rest)
          else if Ascii.eqb c "f" then literal "false" (Bool false) (c :: rest)
          else if Ascii.eqb c dquote then
            '(us, rest') ← chars rest; Some (Str us, rest')
          else if Ascii.eqb c "[" then
            match skip_ws rest with
            | "]"%char :: rest' => Some (Arr [], rest')
            | _ => '(vs, rest') ← parse_elements fuel rest; Some (Arr vs, rest')
            end
          else if Ascii.eqb c "{" then
            match skip_ws rest with
            | "}"%char :: rest' => Some (Obj [], rest')
            | _ => '(ms, rest') ← parse_members fuel rest; Some (Obj ms, rest')
            end
          else number (c :: rest)
      end
  end
with parse_elements (fuel : nat) (cs : list ascii)
  : option (list value * list ascii) :=
  match fuel with
  | O => None
  | S fuel =>
      '(v, rest) ← parse_value fuel cs;
      match skip_ws rest with
      | ","%char :: rest' =>
          '(vs, rest'') ← parse_elements fuel rest'; Some (v :: vs, rest'')
      | "]"%char :: rest' => Some ([v], rest')
      | _ => None
      end
  end
with parse_members (fuel : nat) (cs : list ascii)
  : option (list (list N * value) * list ascii) :=
  match fuel with
  | O => None
  | S fuel =>
      match skip_ws cs with
      | c :: rest =>
          if negb (Ascii.eqb c dquote) then None
          else
            '(key, rest1) ← chars rest;
            match skip_ws rest1 with
            | ":"%char :: rest2 =>
                '(v, rest3) ← parse_value fuel rest2;
                match skip_ws rest3 with
                | ","%char :: rest4 =>
                    '(ms, rest5) ← parse_members fuel rest4;
                    Some ((key, v) :: ms, rest5)
                | "}"%char :: rest4 => Some ([(key, v)], rest4)
                | _ => None
                end
            | _ => None
            end
      | [] => None
      end
  end.

(** [JSON.parse(text)]: the value, or a [SyntaxError]. *)
Definition parse (text : string) : completion value :=
  let cs := list_ascii_of_string text in
  match parse_value (2 * length cs + 2) cs with
  | Some (v, rest) =>
      match skip_ws rest with
      | [] => Normal v
      | _ => Throw (SyntaxError "Unexpected non-whitespace character after JSON")
      end
  | None => Throw (SyntaxError "Unexpected token in JSON")
  end.

Definition hex_char (n : N) : ascii :=
  ascii_of_N (if (n <? 10)%N then n + 48 else n + 87)%N.

(** The quoted form of a string. *)
Fixpoint quote_chars (s : string) : string :=
  match s with
  | EmptyString => EmptyString
  | String c rest =>
      let n := N_of_ascii c in
      let tail := quote_chars rest in
      if Ascii.eqb c dquote then String "\" (String dquote tail)
      else if Ascii.eqb c "\" then String "\" (String "\" tail)
      else if (n =? 8)%N then String "\" (String "b" tail)
      else if (n =? 12)%N then String "\" (String "f" tail)
      else if (n =? 10)%N then String "\" (String "n" tail)
      else if (n =? 13)%N then String "\" (String "r" tail)
      else if (n =? 9)%N then String "\" (String "t" tail)
      else if (n <? 32)%N then
        String "\" (String "u" (String "0" (String "0"
          (String (hex_char (n / 16)) (String (hex_char (n mod 16)) tail)))))
      else String c tail
  end.

Definition quote (s : string) : string :=
  String dquote (quote_chars s +:+ String dquote EmptyString).

Fixpoint join_comma (parts : list string) : string :=
  match parts with
  | [] => EmptyString
  | [part] => part
  | part :: rest => part +:+ String "," (join_comma rest)
  end.

(** [JSON.stringify(strings)] of an array of strings. *)
Definition stringify (strings : list string) : string :=
  String "[" (join_comma (quote <$> strings) +:+ String "]" EmptyString).

(** The value that an array of strings denotes. *)
Definition of_strings (strings : list string) : value :=
  Arr ((λ s, Str (N_of_ascii <$> list_ascii_of_string s)) <$> strings).

(** Is the value an array whose elements are all strings? *)
Definition is_string_array (v : value) : bool :=
  match v with
  | Arr items => forallb (λ x, match x with Str _ => true | _ => false end) items
  | _ => false
  end.

End JSON.

(** ** The application state and its environment *)

(** The state variables of [App]. *)
Record AppState : Type := {
  units : Units;
  q : string;
  city : option Geo;
  now : option WeatherNow;
  fc : option (list ForecastItem);
  loading : bool;
  error : option string;
  recent : list string
}.

(** A request handed to [fetch]. *)
Inductive Request : Type :=
| GeocodeRequest (cityName : string)
| CurrentRequest (lat lon : number) (u : Units)
| ForecastRequest (lat lon : number) (u : Units).

(** How a request ends: [fetch] rejects, the status is not a success, the
    body is not JSON, or the body is the data. *)
Inductive Response (A : Type) : Type :=
| Rejected (e : exn)
| NotOk
| BadBody (e : exn)
| Json (data : A).
Arguments Rejected {A} e.
Arguments NotOk {A}.
Arguments BadBody {A} e.
Arguments Json {A} data.

(** The outside world during one search: what the weather service
    answers, and which of the two weather requests settles first. *)
Record Network : Type := {
  on_geocode : string → Response (list Geo);
  on_current : number → number → Units → Response WeatherNow;
  on_forecast : number → number → Units → Response ForecastRes;
  forecast_settles_first : bool
}.

(** Everything a search reads and writes.  [shown] lists the states that
    have reached the screen while a search was waiting, oldest first: the
    changes of state made between two [await]s are rendered together, when
    the callback next waits. *)
Record World : Type := {
  app : AppState;
  localStorage : gmap string string;
  requests : list Request;
  shown : list AppState
}.

Definition RECENT_KEY : string := "wd_recent_cities".

(** A promise, once settled. *)
Definition Promise (A : Type) : Type := completion A.

(** Code that runs in a world and may throw. *)
Definition M (A : Type) : Type := World → completion A * World.

#[global] Instance M_ret : MRet M := λ A a w, (Normal a, w).
#[global] Instance M_bind : MBind M := λ A B k m w,
  match m w with
  | (Normal a, w') => k a w'
  | (Throw e, w') => (Throw e, w')
  end.

Definition throw {A} (e : exn) : M A := λ w, (Throw e, w).

(** [await p]: the state as it stands is rendered, then the promise
    settles. *)
Definition await {A} (p : Promise A) : M A := λ w,
  (p, {| app := app w; localStorage := localStorage w; requests := requests w;
         shown := shown w ++ [app w] |}).

(** An expression that may throw, evaluated in place. *)
Definition eval {A} (c : completion A) : M A := λ w, (c, w).

(** [try { return body } catch { return fallback }]. *)
Definition try_catch {A} (body : completion A) (handler : exn → completion A)
  : completion A :=
  match body with
  | Normal a => Normal a
  | Throw e => handler e
  end.

(** [try { body } catch (e) { handler } finally { final }]. *)
Definition try_catch_finally (body : M unit) (handler : exn → M unit)
    (final : M unit) : M unit := λ w,
  let '(r, w1) :=
    match body w with
    | (Normal _, w1) => (Normal tt, w1)
    | (Throw e, w1) => handler e w1
    end in
  match final w1 with
  | (Normal _, w2) => (r, w2)
  | (Throw e, w2) => (Throw e, w2)
  end.

Definition modify (f : AppState → AppState) : M unit := λ w,
  (Normal tt, {| app := f (app w); localStorage := localStorage w;
                   requests := requests w; shown := shown w |}).

Definition setCity (v : option Geo) : M unit := modify (λ s,
  {| units := units s; q := q s; city := v; now := now s; fc := fc s;
     loading := loading s; error := error s; recent := recent s |}).
Definition setNow (v : option WeatherNow) : M unit := modify (λ s,
  {| units := units s; q := q s; city := city s; now := v; fc := fc s;
     loading := loading s; error := error s; recent := recent s |}).
Definition setFc (v : option (list ForecastItem)) : M unit := modify (λ s,
  {| units := units s; q := q s; city := city s; now := now s; fc := v;
     loading := loading s; error := error s; recent := recent s |}).
Definition setLoading (v : bool) : M unit := modify (λ s,
  {| units := units s; q := q s; city := city s; now := now s; fc := fc s;
     loading := v; error := error s; recent := recent s |}).
Definition setError (v : option string) : M unit := modify (λ s,
  {| units := units s; q := q s; city := city s; now := now s; fc := fc s;
     loading := loading s; error := v; recent := recent s |}).
Definition setRecent (v : list string) : M unit := modify (λ s,
  {| units := units s; q := q s; city := city s; now := now s; fc := fc s;
     loading := loading s; error := error s; recent := v |}).

(** [localStorage.setItem(key, value)], on a storage that accepts the
    value.  A storage that refuses it makes [setItem] throw: [setItem_in]
    and [runSearch_in] below have that case. *)
Definition setItem (key value : string) : M unit := λ w,
  (Normal tt, {| app := app w; localStorage := <[key := value]> (localStorage w);
                   requests := requests w; shown := shown w |}).

(** [fetch(url)]: the request leaves. *)
Definition fetch (r : Request) : M unit := λ w,
  (Normal tt, {| app := app w; localStorage := localStorage w;
                   requests := requests w ++ [r]; shown := shown w |}).

(** [Promise.all([p1, p2])]: both values, or the rejection that comes
    first. *)
Definition Promise_all {A B} (second_first : bool) (p1 : Promise A) (p2 : Promise B)
  : Promise (A * B) :=
  match p1, p2 with
  | Normal a, Normal b => Normal (a, b)
  | Throw e, Normal _ => Throw e
  | Normal _, Throw e => Throw e
  | Throw e1, Throw e2 => Throw (if second_first then e2 else e1)
  end.

(** A string in a condition: empty is false. *)
Definition truthy (s : string) : bool := negb (String.eqb s EmptyString).

(** [s.toLowerCase()] on the code units up to U+00FF: the capital letters
    A to Z and U+00C0 to U+00DE, U+00D7 apart, move up by 32. *)
Definition lower_char (c : ascii) : ascii :=
  let n := N_of_ascii c in
  if ((65 <=? n) && (n <=? 90) || (192 <=? n) && (n <=? 222) && negb (n =? 215))%N
  then ascii_of_N (n + 32) else c.

Fixpoint toLowerCase (s : string) : string :=
  match s with
  | EmptyString => EmptyString
  | String c rest => String (lower_char c) (toLowerCase rest)
  end.

(** ** The API calls *)

Section search.

(** [import.meta.env.VITE_OPENWEATHER_API_KEY]: [None] when the variable
    is not set. *)
Variable KEY : option string.
Variable net : Network.

Definition has_key : bool :=
  match KEY with
  | Some k => truthy k
  | None => false
  end.

Definition settled {A} (r : Response A) (not_ok : string) : Promise A :=
  match r with
  | Rejected e => Throw e
  | NotOk => Throw (Error not_ok)
  | BadBody e => Throw e
  | Json data => Normal data
  end.

(** How each call ends once its request has left: [data?.[0] ?? null] for
    the geocoder, the body for the two weather calls. *)
Definition geocode_settles (cityName : string) : Promise (option Geo) :=
  data ← settled (on_geocode net cityName) "Geocoding failed";
  Normal (head data).

Definition current_settles (lat lon : number) (u : Units) : Promise WeatherNow :=
  settled (on_current net lat lon u) "Weather data failed to load".

Definition forecast_settles (lat lon : number) (u : Units) : Promise ForecastRes :=
  settled (on_forecast net lat lon u) "Forecast data failed to load".

(** Each call runs up to its [fetch] and hands back a promise. *)
Definition geocode (cityName : string) : M (Promise (option Geo)) :=
  if negb has_key then mret (Throw (Error "API key not configured"))
  else fetch (GeocodeRequest cityName);; mret (geocode_settles cityName).

Definition current (lat lon : number) (u : Units) : M (Promise WeatherNow) :=
  if negb has_key then mret (Throw (Error "API key not configured"))
  else fetch (CurrentRequest lat lon u);; mret (current_settles lat lon u).

Definition forecast (lat lon : number) (u : Units) : M (Promise ForecastRes) :=
  if negb has_key then mret (Throw (Error "API key not configured"))
  else fetch (ForecastRequest lat lon u);; mret (forecast_settles lat lon u).

(** ** [saveRecent] and [runSearch] *)

(** The list that [saveRecent] computes from the [recent] it has
    captured. *)
Definition next_recent (recent0 : list string) (name0 : string) : list string :=
  take 6 (name0 :: filter (λ c, toLowerCase c ≠ toLowerCase name0) recent0).

Definition saveRecent (recent0 : list string) (name0 : string) : M unit :=
  let next := next_recent recent0 name0 in
  setRecent next;;
  setItem RECENT_KEY (JSON.stringify next).

(** [e.message || 'Something went wrong']. *)
Definition shown_message (e : exn) : string :=
  if truthy (message e) then message e else "Something went wrong".

(** The callback closes over the [units] and [recent] of the render that
    created it, which a caller reads off the state at the call. *)
Definition runSearch (cityName : string) : M unit := λ w0,
  let units0 := units (app w0) in
  let recent0 := recent (app w0) in
  (if negb (truthy (trim cityName)) then mret tt
   else if negb has_key then
     setError (Some "Missing API key. Set VITE_OPENWEATHER_API_KEY environment variable.")
   else
     setLoading true;;
     setError None;;
     try_catch_finally
       (pg ← geocode cityName;
        g ← await pg;
        match g with
        | None => throw (Error "City not found")
        | Some g =>
            setCity (Some g);;
            p1 ← current (lat g) (lon g) units0;
            p2 ← forecast (lat g) (lon g) units0;
            '(w, f) ← await (Promise_all (forecast_settles_first net) p1 p2);
            setNow (Some w);;
            daily ← eval (pickDaily (list_ f));
            setFc (Some daily);;
            saveRecent recent0 (name g)
        end)
       (λ e,
          setError (Some (shown_message e));;
          setNow None;;
          setFc None)
       (setLoading false)) w0.

End search.

(** Equality of two city names up to the case of their letters. *)
Definition same_city (a b : string) : Prop := toLowerCase a = toLowerCase b.

#[global] Instance same_city_dec a b : Decision (same_city a b) :=
  decide (toLowerCase a = toLowerCase b).

(** One search after the other, each from the world the previous one
    left. *)
Definition search_each (KEY : option string) (net : Network) (names : list string)
    (w : World) : World :=
  foldl (λ w n, (runSearch KEY net n w).2) w names.

(** How the two weather calls end together. *)
Definition weather_settles (net : Network) (g : Geo) (u : Units)
  : Promise (WeatherNow * ForecastRes) :=
  Promise_all (forecast_settles_first net)
    (current_settles net (lat g) (lon g) u)
    (forecast_settles net (lat g) (lon g) u).

(** The requests of a search that finds its city. *)
Definition sent_requests (cityName : string) (g : Geo) (u : Units) : list Request :=
  [GeocodeRequest cityName; CurrentRequest (lat g) (lon g) u;
   ForecastRequest (lat g) (lon g) u].

(** The search for [n] succeeds in full, and the service calls the place
    it finds [n]. *)
Definition found_as_named (net : Network) (u : Units) (n : string) : Prop :=
  ∃ g w f daily,
    geocode_settles net n = Normal (Some g) ∧ name g = n ∧
    weather_settles net g u = Normal (w, f) ∧
    pickDaily (list_ f) = Normal daily.

(** A search has failed: the message is shown, the weather is gone, and
    the city is [c]. *)
Definition failed_with (a' : AppState) (msg : string) (c : option Geo) : Prop :=
  error a' = Some msg ∧ now a' = None ∧ fc a' = None ∧ loading a' = false ∧
  city a' = c.

(** The state after a search that failed with message [msg], [c] being
    the city it is left with. *)
Definition failed_app (s : AppState) (c : option Geo) (msg : string) : AppState :=
  {| units := units s; q := q s; city := c; now := None; fc := None;
     loading := false; error := Some msg; recent := recent s |}.

(** ** The initial value of [recent] *)

(** [localStorage.getItem(RECENT_KEY) || '[]']. *)
Definition stored_recent (storage : gmap string string) : string :=
  match storage !! RECENT_KEY with
  | Some text => if truthy text then text else "[]"
  | None => "[]"
  end.

(** The initializer of [recent]:
    [try { return JSON.parse(...) } catch { return [] }]. *)
Definition loadRecent (storage : gmap string string) : completion JSON.value :=
  try_catch (JSON.parse (stored_recent storage)) (λ _, Normal (JSON.Arr [])).

(** ** Vocabulary of the properties *)

Definition day_ok (it : ForecastItem) : Prop := day_of it ∉ Object_prototype_keys.
Definition has_time (it : ForecastItem) : Prop := is_Some (split " " (dt_txt it) !! 1%nat).

(** The forecast points on which [pickDaily] does not throw: the text has
    a second, space-separated part, and its first part is not the name of
    a property inherited by every object. *)
Definition well_formed (it : ForecastItem) : Prop := day_ok it ∧ has_time it.

#[global] Instance day_ok_dec it : Decision (day_ok it).
Proof. unfold day_ok. apply _. Defined.
#[global] Instance has_time_dec it : Decision (has_time it).
Proof. unfold has_time. apply _. Defined.
#[global] Instance well_formed_dec it : Decision (well_formed it).
Proof. unfold well_formed. apply _. Defined.

(** The items of [lst] dated [d], in the order of [lst]. *)
Definition on_day (d : string) (lst : list ForecastItem) : list ForecastItem :=
  filter (λ it, day_of it = d) lst.

Definition add_item (groups : gmap string (list ForecastItem)) (item : ForecastItem)
  : gmap string (list ForecastItem) :=
  <[day_of item := default [] (groups !! day_of item) ++ [item]]> groups.

Definition merge_group (o : option (list ForecastItem)) (ys : list ForecastItem)
  : option (list ForecastItem) :=
  match o, ys with
  | None, [] => None
  | _, _ => Some (default [] o ++ ys)
  end.

(** [Math.abs(12 - hour)] of an item, when its hour text is a number;
    [None] when the text is missing or reads as NaN. *)
Definition hour_distance (it : ForecastItem) : option Q :=
  match hour_of it with
  | Normal (Finite h) => Some (Qabs (12 - h))
  | _ => None
  end.

(** Distances compared, an item without a readable hour being farther
    from noon than any item with one. *)
Definition nearer (a b : option Q) : Prop :=
  match a, b with
  | Some x, Some y => (x < y)%Q
  | Some _, None => True
  | None, _ => False
  end.

Definition not_farther (a b : option Q) : Prop :=
  match a, b with
  | Some x, Some y => (x <= y)%Q
  | _, None => True
  | None, Some _ => False
  end.

(** [sel] is the first item of [items] at the least distance from noon. *)
Definition first_closest (items : list ForecastItem) (sel : ForecastItem) : Prop :=
  ∃ before after,
    items = before ++ sel :: after ∧
    Forall (λ it, nearer (hour_distance sel) (hour_distance it)) before ∧
    Forall (λ it, not_farther (hour_distance sel) (hour_distance it)) after.

Definition bound_number (bound : option Q) : number :=
  match bound with
  | Some q => Finite q
  | None => Infinity
  end.

(** The distinct dates of the input. *)
Definition distinct_days (lst : list ForecastItem) : gset string :=
  list_to_set (day_of <$> lst).

(** The distinct dates in ascending order. *)
Definition sorted_days (lst : list ForecastItem) : list string :=
  merge_sort String.le (elements (distinct_days lst)).

(** The strict order on dates that [sort()] produces: [a] before [b]. *)
Definition date_lt (a b : string) : Prop := String.ltb a b = true.

(** [sel] is, among the items of [lst] with its date, the first one at the
    least distance from noon: same-day items before it are strictly
    farther, same-day items after it are not nearer. *)
Definition noon_closest_in (lst : list ForecastItem) (sel : ForecastItem) : Prop :=
  ∃ before after,
    lst = before ++ sel :: after ∧
    Forall (λ it, day_of it = day_of sel →
                  nearer (hour_distance sel) (hour_distance it)) before ∧
    Forall (λ it, day_of it = day_of sel →
                  not_farther (hour_distance sel) (hour_distance it)) after.

(** The state on screen while the geocoder is awaited, and while the two
    weather calls are. *)
Definition searching (s : AppState) : AppState :=
  {| units := units s; q := q s; city := city s; now := now s; fc := fc s;
     loading := true; error := None; recent := recent s |}.

Definition fetching (s : AppState) (g : Geo) : AppState :=
  {| units := units s; q := q s; city := Some g; now := now s; fc := fc s;
     loading := true; error := None; recent := recent s |}.

(** The world a search leaves when it stores nothing: state [a], the
    requests [sent] after those of [w0], and the states [seen] on screen
    in the meantime. *)
Definition after_search (w0 : World) (a : AppState) (sent : list Request)
    (seen : list AppState) : World :=
  {| app := a; localStorage := localStorage w0; requests := requests w0 ++ sent;
     shown := shown w0 ++ seen |}.

(** Weather and forecast are both there, or both missing. *)
Definition paired (s : AppState) : Prop := is_Some (now s) ↔ is_Some (fc s).

(** ** Sample data *)

Definition zero : number := Finite 0.

Definition sample_item (txt : string) : ForecastItem :=
  {| dt := zero; dt_txt := txt;
     fc_main := {| temp := zero; feels_like := zero; humidity := zero |};
     weather := []; wind := {| speed := zero; deg := zero |} |}.

Definition sample_geo (n : string) : Geo :=
  {| name := n; lat := zero; lon := zero; country := "FR"; state := None |}.

Definition sample_now (n : string) : WeatherNow :=
  {| now_name := n; now_dt := zero;
     sys := {| sys_country := "FR"; sunrise := zero; sunset := zero |};
     now_weather := [];
     now_main := {| now_temp := zero; now_feels_like := zero; now_humidity := zero;
                    pressure := zero; temp_min := zero; temp_max := zero |};
     now_wind := {| speed := zero; deg := zero |};
     visibility := zero |}.

Definition sample_forecast (n : string) (txts : list string) : ForecastRes :=
  {| list_ := sample_item <$> txts;
     city_ := {| city_name := n; city_country := "FR"; timezone := zero |} |}.

Definition initial_app : AppState :=
  {| units := imperial; q := "Minneapolis"; city := None; now := None; fc := None;
     loading := false; error := None; recent := [] |}.

Definition initial_world : World :=
  {| app := initial_app; localStorage := ∅; requests := []; shown := [] |}.

(** A service that knows every city. *)
Definition net_ok : Network :=
  {| on_geocode := λ c, Json [sample_geo c];
     on_current := λ _ _ _, Json (sample_now "x");
     on_forecast := λ _ _ _, Json (sample_forecast "x" ["2024-05-01 12:00:00"; "2024-05-02 12:00:00"]);
     forecast_settles_first := false |}.

Definition net_no_match : Network :=
  {| on_geocode := λ c, Json [];
     on_current := λ _ _ _, Json (sample_now "x");
     on_forecast := λ _ _ _, Json (sample_forecast "x" []);
     forecast_settles_first := false |}.

Definition net_forecast_down : Network :=
  {| on_geocode := λ c, Json [sample_geo c];
     on_current := λ _ _ _, Json (sample_now "x");
     on_forecast := λ _ _ _, NotOk;
     forecast_settles_first := false |}.

(** The world after a first, successful search for Paris. *)
Definition world_paris : World :=
  (runSearch (Some "k") net_ok "Paris" initial_world).2.

(** Seven city names, and a search for each. *)
Definition seven_names : list string :=
  ["Paris"; "Lyon"; "Oslo"; "Rome"; "Bern"; "Kiev"; "Riga"].

(** ** The rest of the component *)

(** *** [degToCompass] *)

Definition compass : list string :=
  ["N"; "NNE"; "NE"; "ENE"; "E"; "ESE"; "SE"; "SSE";
   "S"; "SSW"; "SW"; "WSW"; "W"; "WNW"; "NW"; "NNW"].

(** [arr[Math.floor((num / 22.5) + 0.5) % 16]].  The remainder has the sign
    of [val], and a negative index is [undefined], as is the index NaN that
    NaN and the infinities lead to.  The quotient is taken here in the
    rationals, where the program divides in double precision.  The two
    agree on the whole numbers of degrees that a wind direction takes, and
    on those the properties below are stated: lemma
    [degToCompass_in_doubles] compares them from -348 to 720.  They differ
    on large numbers and close to the border of two sectors (lemma
    [degToCompass_beyond]). *)
Definition degToCompass (num : number) : option string :=
  match num with
  | Finite x =>
      let val := Qfloor (x / (45 # 2) + (1 # 2)) in
      let index := Z.rem val 16 in
      if (index <? 0)%Z then None else compass !! Z.to_nat index
  | _ => None
  end.

(** The same computation in double precision, on the kernel's binary64
    numbers. *)
Module Double.
Import PrimFloat.

(** The double that a whole number below 2^53 in absolute value is. *)
Definition of_whole (n : Z) : float :=
  if (n <? 0)%Z then opp (of_uint63 (Uint63.of_Z (- n)))
  else of_uint63 (Uint63.of_Z n).

(** [Math.floor] of a finite double [m * 2^e], as an integer; [None] for
    NaN and the infinities. *)
Definition Math_floor (x : float) : option Z :=
  match FloatOps.Prim2SF x with
  | SpecFloat.S754_zero _ => Some 0%Z
  | SpecFloat.S754_finite negative m e =>
      let whole :=
        if (0 <=? e)%Z then (Z.pos m * 2 ^ e)%Z else (Z.pos m `div` 2 ^ (- e))%Z in
      let exact :=
        if (0 <=? e)%Z then true else (Z.pos m `mod` 2 ^ (- e) =? 0)%Z in
      Some (if negative then (if exact then - whole else - whole - 1)%Z else whole)
  | _ => None
  end.

Definition degToCompass (num : float) : option string :=
  match Math_floor ((num / 22.5) + 0.5)%float with
  | Some val =>
      let index := Z.rem val 16 in
      if (index <? 0)%Z then None else compass !! Z.to_nat index
  | None => None
  end.
End Double.

(** Two results of [degToCompass] compared. *)
Definition same_point (a b : option string) : bool :=
  match a, b with
  | Some x, Some y => String.eqb x y
  | None, None => true
  | _, _ => false
  end.

(** *** [useTheme] *)

Definition THEME_KEY : string := "wd_theme".

(** The initializer: [localStorage.getItem(THEME_KEY) || 'light'], the
    stored text being taken as it is. *)
Definition initial_theme (storage : gmap string string) : string :=
  match storage !! THEME_KEY with
  | Some saved => if truthy saved then saved else "light"
  | None => "light"
  end.

(** What the hook reads and writes: its state, the classes of the root
    element and the storage. *)
Record Page : Type := {
  theme : string;
  classList : gset string;
  page_storage : gmap string string
}.

(** The effect, run after the first render and after every change of
    [theme]. *)
Definition theme_effect (p : Page) : Page :=
  {| theme := theme p;
     classList := if decide (theme p = "dark") then classList p ∪ {["dark"]}
                  else classList p ∖ {["dark"]};
     page_storage := <[THEME_KEY := theme p]> (page_storage p) |}.

Definition mount_theme (classes : gset string) (storage : gmap string string) : Page :=
  theme_effect {| theme := initial_theme storage; classList := classes;
                  page_storage := storage |}.

(** [t => t === 'dark' ? 'light' : 'dark'], the update of the theme
    button. *)
Definition other_theme (t : string) : string :=
  if decide (t = "dark") then "light" else "dark".

(** A click on the theme button: the new theme differs from the old one,
    so the effect runs. *)
Definition toggle_theme (p : Page) : Page :=
  theme_effect {| theme := other_theme (theme p); classList := classList p;
                  page_storage := page_storage p |}.

(** *** The handlers of [App] *)

Definition setUnits (f : Units → Units) : M unit := modify (λ s,
  {| units := f (units s); q := q s; city := city s; now := now s; fc := fc s;
     loading := loading s; error := error s; recent := recent s |}).
Definition setQ (v : string) : M unit := modify (λ s,
  {| units := units s; q := v; city := city s; now := now s; fc := fc s;
     loading := loading s; error := error s; recent := recent s |}).

(** [u => u === 'imperial' ? 'metric' : 'imperial'], the update of the
    unit button. *)
Definition other_units (u : Units) : Units :=
  match u with
  | imperial => metric
  | metric => imperial
  end.

(** The state is rendered before the effects of the render run. *)
Definition render : M unit := λ w,
  (Normal tt, {| app := app w; localStorage := localStorage w; requests := requests w;
                   shown := shown w ++ [app w] |}).

(** [useEffect(() => { if (city) runSearch(city.name) }, [units])]: the
    effect of a render in which [units] has changed. *)
Definition units_effect (KEY : option string) (net : Network) : M unit := λ w,
  match city (app w) with
  | Some c => runSearch KEY net (name c) w
  | None => (Normal tt, w)
  end.

(** A click on the unit button. *)
Definition toggleUnits (KEY : option string) (net : Network) : M unit :=
  setUnits other_units;; render;; units_effect KEY net.

(** [handleSearch], which the search button and the Enter key call. *)
Definition handleSearch (KEY : option string) (net : Network) : M unit := λ w,
  runSearch KEY net (q (app w)) w.

(** A click on the recent city [c]: [setQ(c); runSearch(c)]. *)
Definition recentClick (KEY : option string) (net : Network) (c : string) : M unit :=
  setQ c;; runSearch KEY net c.

(** [disabled={loading || !q.trim()}] on the search button. *)
Definition search_disabled (s : AppState) : bool :=
  loading s || negb (truthy (trim (q s))).

(** *** A storage that may refuse a write *)

(** [localStorage.setItem] throws when the storage does not take the value
    (the quota is exceeded, the storage is switched off).  [refuses key
    value] is the exception thrown then, of which the program reads the
    message alone, and [None] when the value is taken. *)
Definition Refusal : Type := string → string → option exn.

Definition accepting : Refusal := λ _ _, None.

Definition setItem_in (refuses : Refusal) (key value : string) : M unit := λ w,
  match refuses key value with
  | Some e => (Throw e, w)
  | None => setItem key value w
  end.

(** [saveRecent]: the state is set before the storage is written. *)
Definition saveRecent_in (refuses : Refusal) (recent0 : list string) (name0 : string)
  : M unit :=
  let next := next_recent recent0 name0 in
  setRecent next;;
  setItem_in refuses RECENT_KEY (JSON.stringify next).

(** [runSearch] on such a storage: the write of [saveRecent] is inside the
    [try], and its exception is caught with the others. *)
Definition runSearch_in (refuses : Refusal) (KEY : option string) (net : Network)
    (cityName : string) : M unit := λ w0,
  let units0 := units (app w0) in
  let recent0 := recent (app w0) in
  (if negb (truthy (trim cityName)) then mret tt
   else if negb (has_key KEY) then
     setError (Some "Missing API key. Set VITE_OPENWEATHER_API_KEY environment variable.")
   else
     setLoading true;;
     setError None;;
     try_catch_finally
       (pg ← geocode KEY net cityName;
        g ← await pg;
        match g with
        | None => throw (Error "City not found")
        | Some g =>
            setCity (Some g);;
            p1 ← current KEY net (lat g) (lon g) units0;
            p2 ← forecast KEY net (lat g) (lon g) units0;
            '(w, f) ← await (Promise_all (forecast_settles_first net) p1 p2);
            setNow (Some w);;
            daily ← eval (pickDaily (list_ f));
            setFc (Some daily);;
            saveRecent_in refuses recent0 (name g)
        end)
       (λ e,
          setError (Some (shown_message e));;
          setNow None;;
          setFc None)
       (setLoading false)) w0.

(** *** What the user does *)

(** The events the page reacts to: text typed in the input, the Enter key
    in the input, a click on the search button, on the recent city at
    index [i], or on the unit button. *)
Inductive Event : Type :=
| TypeText (text : string)
| PressEnter
| ClickSearch
| ClickRecent (i : nat)
| ClickUnits.

(** The handler of each event.  The input is [disabled={loading}] and the
    button [disabled={loading || !q.trim()}]: a disabled control receives
    nothing.  The recent cities and the unit button are always live. *)
Definition handle (KEY : option string) (net : Network) (ev : Event) : M unit := λ w,
  match ev with
  | TypeText text => if loading (app w) then (Normal tt, w) else setQ text w
  | PressEnter => if loading (app w) then (Normal tt, w) else handleSearch KEY net w
  | ClickSearch =>
      if search_disabled (app w) then (Normal tt, w) else handleSearch KEY net w
  | ClickRecent i =>
      match recent (app w) !! i with
      | Some c => recentClick KEY net c w
      | None => (Normal tt, w)
      end
  | ClickUnits => toggleUnits KEY net w
  end.

(** One event after the other, each with the answers the service gives at
    that time, and each once the search of the previous one has settled. *)
Definition run (KEY : option string) (events : list (Event * Network)) (w : World)
  : World :=
  foldl (λ w '(ev, net), (handle KEY net ev w).2) w events.

(** *** More vocabulary *)

(** The recent list as the program keeps it: six names at most, no two of
    them equal up to case. *)
Definition recent_ok (names : list string) : Prop :=
  length names ≤ 6 ∧ NoDup (toLowerCase <$> names).

(** A forecast as the program shows it: five days at most, in increasing
    order of their dates. *)
Definition forecast_ok (s : AppState) : Prop :=
  ∀ daily, fc s = Some daily →
    length daily ≤ 5 ∧ StronglySorted date_lt (day_of <$> daily).

(** The state after a search that found [g], its weather [w] and the
    summary [daily]. *)
Definition found_app (s : AppState) (g : Geo) (w : WeatherNow)
    (daily : list ForecastItem) : AppState :=
  {| units := units s; q := q s; city := Some g; now := Some w; fc := Some daily;
     loading := false; error := None; recent := next_recent (recent s) (name g) |}.

(** The state after a search without an API key. *)
Definition key_missing_app (s : AppState) : AppState :=
  {| units := units s; q := q s; city := city s; now := now s; fc := fc s;
     loading := loading s;
     error := Some "Missing API key. Set VITE_OPENWEATHER_API_KEY environment variable.";
     recent := recent s |}.

(** A whole number of degrees. *)
Definition degrees (n : Z) : number := Finite (inject_Z n).

(** [w1] is [w] but for the text of the input, the units, and the state
    rendered last. *)
Definition input_changed (w w1 : World) : Prop :=
  localStorage w1 = localStorage w ∧ requests w1 = requests w ∧
  (shown w1 = shown w ∨ shown w1 = shown w ++ [app w1]) ∧
  city (app w1) = city (app w) ∧ now (app w1) = now (app w) ∧
  fc (app w1) = fc (app w) ∧ loading (app w1) = loading (app w) ∧
  error (app w1) = error (app w) ∧ recent (app w1) = recent (app w).

(** The stored list reads back as the list on screen. *)
Definition recent_stored (w : World) : Prop :=
  loadRecent (localStorage w) = Normal (JSON.of_strings (recent (app w))).

(** *** More sample data *)

Definition net_weather_down : Network :=
  {| on_geocode := λ c, Json [sample_geo c];
     on_current := λ _ _ _, NotOk;
     on_forecast := λ _ _ _, NotOk;
     forecast_settles_first := true |}.

(** A service whose forecast holds a point without a time. *)
Definition net_bad_forecast : Network :=
  {| on_geocode := λ c, Json [sample_geo c];
     on_current := λ _ _ _, Json (sample_now "x");
     on_forecast := λ _ _ _,
       Json (sample_forecast "x" ["2024-05-01 12:00:00"; "2024-05-09"]);
     forecast_settles_first := false |}.

(** A session: two searches, a click on the older recent city, a change
    of units. *)
Definition sample_events : list (Event * Network) :=
  [(TypeText "Paris", net_ok); (PressEnter, net_ok);
   (TypeText "Lyon", net_ok); (ClickSearch, net_forecast_down);
   (ClickSearch, net_ok); (ClickRecent 1, net_ok); (ClickUnits, net_ok)].

(** A storage that is full. *)
Definition full_storage : Refusal :=
  λ _ _, Some (Error "The quota has been exceeded.").

Definition sample_page : Page :=
  {| theme := "light"; classList := ∅; page_storage := ∅ |}.

(** ** Facts about the string and number primitives *)

Lemma split_lookup_0 sep s : split sep s !! 0%nat = Some (split_on sep s).1.
Proof. unfold split. by destruct (split_on sep s). Qed.

Lemma split_lookup_1 sep s : split sep s !! 1%nat = (split_on sep s).2 !! 0%nat.
Proof. unfold split. by destruct (split_on sep s). Qed.

Lemma day_of_eq item : day_of item = (split_on " " (dt_txt item)).1.
Proof. unfold day_of. by rewrite split_lookup_0. Qed.

Lemma Qltb_lt x y : Qltb x y = true ↔ (x < y)%Q.
Proof. unfold Qltb, Qlt. apply Z.ltb_lt. Qed.

Lemma Qltb_ge x y : Qltb x y = false ↔ (y <= x)%Q.
Proof. unfold Qltb, Qle. rewrite Z.ltb_ge. done. Qed.

Lemma filter_all {A} (P : A → Prop) `{!∀ x, Decision (P x)} (l : list A) :
  Forall P l → filter P l = l.
Proof.
  induction 1 as [|x l Hx _ IH]; [done|].
  by rewrite filter_cons_True, IH.
Qed.

(** [slice(0, 2)] hands [Number] at most two code units. *)
Lemma slice0_length n s : String.length (slice0 n s) ≤ n.
Proof.
  unfold slice0. revert s. induction n as [|n IH]; intros [|c s]; simpl; try lia.
  specialize (IH s). lia.
Qed.

(** [Number] never yields an infinity. *)
Lemma Number_not_Inf s b : Number s ≠ Inf b.
Proof.
  unfold Number.
  repeat (case_match; try discriminate).
Qed.

(** ** What [JSON.stringify] writes, [JSON.parse] reads back *)

Section round_trip.
Import JSON.
Implicit Types (s : string) (cs rest : list ascii) (strings : list string).

Lemma list_ascii_of_string_app s1 s2 :
  list_ascii_of_string (s1 +:+ s2) = list_ascii_of_string s1 ++ list_ascii_of_string s2.
Proof. induction s1 as [|c s1 IH]; simpl; [done|by rewrite IH]. Qed.

Lemma hex_digit_hex_char (k : N) : (k < 16)%N → hex_digit (hex_char k) = Some k.
Proof.
  intros Hk.
  assert (k ∈ (N.of_nat <$> seq 0 16)) as Hin.
  { apply list_elem_of_fmap. exists (N.to_nat k). split; [lia|].
    apply elem_of_seq. lia. }
  simpl in Hin.
  repeat (apply elem_of_cons in Hin as [->|Hin]; [reflexivity|]).
  by apply elem_of_nil in Hin.
Qed.

Lemma chars_escape_u h3 h4 cs (a b : N) :
  hex_digit h3 = Some a → hex_digit h4 = Some b →
  chars ("\"%char :: "u"%char :: "0"%char :: "0"%char :: h3 :: h4 :: cs) =
    ('(us, rest) ← chars cs; Some ((a * 16 + b)%N :: us, rest)).
Proof. intros H3 H4. simpl. by rewrite H3, H4. Qed.

Lemma chars_plain c cs :
  Ascii.eqb c dquote = false → (N_of_ascii c <? 32)%N = false →
  Ascii.eqb c "\" = false →
  chars (c :: cs) = ('(us, rest) ← chars cs; Some (N_of_ascii c :: us, rest)).
Proof. intros Hq Hlow Hb. simpl. by rewrite Hq, Hlow, Hb. Qed.

(** The characters that [quote_chars] writes for [s], followed by the
    closing quote, read back as the code units of [s]. *)
Lemma chars_quote_chars s rest :
  chars (list_ascii_of_string (quote_chars s) ++ dquote :: rest) =
    Some (N_of_ascii <$> list_ascii_of_string s, rest).
Proof.
  induction s as [|c s IH]; [done|].
  cbn [quote_chars list_ascii_of_string fmap list_fmap].
  destruct (Ascii.eqb c dquote) eqn:Hq.
  { apply Ascii.eqb_eq in Hq as ->. simpl. by rewrite IH. }
  destruct (Ascii.eqb c "\") eqn:Hb.
  { apply Ascii.eqb_eq in Hb as ->. simpl. by rewrite IH. }
  destruct (N_of_ascii c =? 8)%N eqn:H8.
  { apply N.eqb_eq in H8. simpl. rewrite IH. simpl. by rewrite H8. }
  destruct (N_of_ascii c =? 12)%N eqn:H12.
  { apply N.eqb_eq in H12. simpl. rewrite IH. simpl. by rewrite H12. }
  destruct (N_of_ascii c =? 10)%N eqn:H10.
  { apply N.eqb_eq in H10. simpl. rewrite IH. simpl. by rewrite H10. }
  destruct (N_of_ascii c =? 13)%N eqn:H13.
  { apply N.eqb_eq in H13. simpl. rewrite IH. simpl. by rewrite H13. }
  destruct (N_of_ascii c =? 9)%N eqn:H9.
  { apply N.eqb_eq in H9. simpl. rewrite IH. simpl. by rewrite H9. }
  destruct (N_of_ascii c <? 32)%N eqn:Hlow.
  - apply N.ltb_lt in Hlow.
    cbn [list_ascii_of_string]. rewrite <- !app_comm_cons.
    rewrite (chars_escape_u _ _ _ (N_of_ascii c `div` 16) (N_of_ascii c `mod` 16))%N.
    + rewrite IH. simpl. do 3 f_equal.
      rewrite N.mul_comm. symmetry. apply N.div_mod. lia.
    + apply hex_digit_hex_char. apply N.Div0.div_lt_upper_bound. lia.
    + apply hex_digit_hex_char. apply N.mod_lt. lia.
  - cbn [list_ascii_of_string]. rewrite <- !app_comm_cons.
    rewrite chars_plain by done. by rewrite IH.
Qed.

Lemma parse_value_quote fuel s rest :
  parse_value (S fuel) (list_ascii_of_string (quote s) ++ rest) =
    Some (Str (N_of_ascii <$> list_ascii_of_string s), rest).
Proof.
  unfold quote. cbn [list_ascii_of_string].
  rewrite list_ascii_of_string_app.
  cbn [list_ascii_of_string]. rewrite <- app_comm_cons, <- app_assoc.
  rewrite <- app_comm_cons, app_nil_l.
  cbn [parse_value skip_ws]. change (is_ws dquote) with false. cbv iota.
  change (Ascii.eqb dquote "n") with false.
  change (Ascii.eqb dquote "t") with false.
  change (Ascii.eqb dquote "f") with false.
  change (Ascii.eqb dquote dquote) with true. cbv iota.
  by rewrite chars_quote_chars.
Qed.

Lemma parse_elements_S fuel cs :
  parse_elements (S fuel) cs =
    ('(v, rest) ← parse_value fuel cs;
     match skip_ws rest with
     | ","%char :: rest' =>
         '(vs, rest'') ← parse_elements fuel rest'; Some (v :: vs, rest'')
     | "]"%char :: rest' => Some ([v], rest')
     | _ => None
     end).
Proof. done. Qed.

Lemma join_comma_cons (part part' : string) (parts : list string) :
  join_comma (part :: part' :: parts) =
    part +:+ String "," (join_comma (part' :: parts)).
Proof. done. Qed.

(** The elements of a non-empty array, after the opening bracket. *)
Lemma parse_elements_quotes fuel s strings rest :
  length strings < fuel →
  parse_elements (S fuel)
    (list_ascii_of_string (join_comma (quote <$> s :: strings)) ++ "]"%char :: rest) =
    Some ((λ s, Str (N_of_ascii <$> list_ascii_of_string s)) <$> s :: strings, rest).
Proof.
  revert fuel s. induction strings as [|s' strings IH]; intros fuel s Hfuel.
  - destruct fuel as [|fuel]; [simpl in Hfuel; lia|].
    rewrite parse_elements_S. cbn [fmap list_fmap join_comma].
    by rewrite parse_value_quote.
  - destruct fuel as [|fuel]; [simpl in Hfuel; lia|].
    rewrite parse_elements_S, !fmap_cons, join_comma_cons.
    rewrite list_ascii_of_string_app, <- app_assoc, parse_value_quote.
    cbn [list_ascii_of_string]. rewrite <- app_comm_cons.
    cbn [mbind option_bind skip_ws]. change (is_ws ",") with false. cbv iota.
    rewrite <- fmap_cons, IH by (simpl in Hfuel; lia). done.
Qed.

Lemma length_join_comma (parts : list string) :
  length parts ≤ S (length (list_ascii_of_string (join_comma parts))).
Proof.
  induction parts as [|part [|part' parts] IH]; [simpl; lia|simpl; lia|].
  rewrite join_comma_cons, list_ascii_of_string_app, length_app.
  cbn [list_ascii_of_string length] in *. lia.
Qed.

(** [JSON.parse(JSON.stringify(strings))] is the array of those strings. *)
Lemma parse_stringify strings :
  parse (stringify strings) = Normal (of_strings strings).
Proof.
  destruct strings as [|s strings]; [done|].
  unfold parse, stringify, of_strings.
  cbn [list_ascii_of_string]. rewrite list_ascii_of_string_app.
  cbn [list_ascii_of_string].
  set (body := list_ascii_of_string (join_comma (quote <$> s :: strings))).
  assert (length strings < 2 * length ("["%char :: body ++ ["]"%char])) as Hfuel.
  { pose proof (length_join_comma (quote <$> s :: strings)) as Hlen.
    rewrite length_fmap in Hlen. cbn [length] in *. rewrite length_app.
    fold body in Hlen. lia. }
  replace (2 * length ("["%char :: body ++ ["]"%char]) + 2)
    with (S (S (2 * length ("["%char :: body ++ ["]"%char])))) by lia.
  cbn [parse_value skip_ws]. change (is_ws "[") with false. cbv iota.
  change (Ascii.eqb "[" "n") with false.
  change (Ascii.eqb "[" "t") with false.
  change (Ascii.eqb "[" "f") with false.
  change (Ascii.eqb "[" dquote) with false.
  change (Ascii.eqb "[" "[") with true. cbv iota.
  assert (∃ tl, skip_ws (body ++ ["]"%char]) = dquote :: tl) as [tl ->].
  { unfold body. cbn [fmap list_fmap]. destruct strings; simpl; by eexists. }
  unfold body. rewrite parse_elements_quotes by done. done.
Qed.

End round_trip.

(** ** The first loop of [pickDaily] *)

Section grouping.
Implicit Types (groups : gmap string (list ForecastItem)) (lst : list ForecastItem).

Lemma group_by_day_ok lst groups :
  Forall day_ok lst → group_by_day lst groups = Normal (foldl add_item groups lst).
Proof.
  intros Hok. revert groups.
  induction Hok as [|it lst Hit _ IH]; intros groups; [done|].
  simpl. unfold get_group.
  destruct (groups !! day_of it) as [items|] eqn:Hg.
  - rewrite IH. unfold add_item. by rewrite Hg.
  - rewrite bool_decide_eq_false_2 by exact Hit.
    rewrite IH. unfold add_item. by rewrite Hg.
Qed.

Lemma group_by_day_throw lst groups :
  (∀ d, d ∈ Object_prototype_keys → groups !! d = None) →
  Exists (λ it, ¬ day_ok it) lst →
  ∃ e, group_by_day lst groups = Throw e.
Proof.
  revert groups. induction lst as [|it lst IH]; intros groups Hfresh Hex.
  { by apply Exists_nil in Hex. }
  simpl. unfold get_group.
  destruct (decide (day_ok it)) as [Hok|Hbad].
  - apply Exists_cons in Hex as [?|Hex]; [done|].
    assert (∃ e, group_by_day lst (add_item groups it) = Throw e) as Hthrow.
    { apply IH; [|done]. intros d Hd. unfold add_item.
      rewrite lookup_insert_ne; [by apply Hfresh|].
      intros <-. by apply Hok. }
    unfold add_item in Hthrow.
    destruct (groups !! day_of it) as [items|] eqn:Hg; [done|].
    by rewrite bool_decide_eq_false_2 by exact Hok.
  - assert (day_of it ∈ Object_prototype_keys) as Hin.
    { unfold day_ok in Hbad. by destruct (decide (day_of it ∈ Object_prototype_keys)). }
    rewrite (Hfresh _ Hin), bool_decide_eq_true_2 by exact Hin. eauto.
Qed.

Lemma foldl_add_item_lookup lst groups d :
  foldl add_item groups lst !! d = merge_group (groups !! d) (on_day d lst).
Proof.
  revert groups. induction lst as [|it lst IH]; intros groups; simpl.
  { unfold on_day. rewrite filter_nil. destruct (groups !! d); simpl; by rewrite ?app_nil_r. }
  rewrite IH. unfold add_item, on_day.
  destruct (decide (day_of it = d)) as [Heq|Hne].
  - rewrite filter_cons_True by done. rewrite Heq, lookup_insert_eq. simpl.
    destruct (groups !! d) as [xs|]; simpl.
    + destruct (filter _ lst); simpl; by rewrite <- ?app_assoc.
    + by destruct (filter _ lst).
  - rewrite lookup_insert_ne, filter_cons_False by done. done.
Qed.

(** After the first loop, [groups[d]] holds the items dated [d]. *)
Lemma grouped_lookup lst d :
  foldl add_item ∅ lst !! d =
    match on_day d lst with [] => None | items => Some items end.
Proof.
  rewrite foldl_add_item_lookup, lookup_empty. simpl. by destruct (on_day d lst).
Qed.

Lemma on_day_nil d lst : on_day d lst = [] ↔ d ∉ day_of <$> lst.
Proof.
  unfold on_day. induction lst as [|it lst IH]; simpl.
  { split; [intros _; apply not_elem_of_nil|done]. }
  rewrite not_elem_of_cons.
  destruct (decide (day_of it = d)) as [Heq|Hne].
  - rewrite filter_cons_True by done. split; [done|]. intros [? _]. by subst.
  - rewrite filter_cons_False by done. rewrite IH. split; [by intros ?; split|by intros [_ ?]].
Qed.

Lemma grouped_dom lst : dom (foldl add_item ∅ lst) = list_to_set (day_of <$> lst).
Proof.
  apply set_eq. intros d.
  rewrite elem_of_dom, grouped_lookup, elem_of_list_to_set.
  destruct (on_day d lst) as [|it items] eqn:Hd.
  - apply on_day_nil in Hd. split; [by intros [? ?]|done].
  - split; [intros _|by eauto].
    destruct (decide (d ∈ day_of <$> lst)) as [|Hn]; [done|].
    apply on_day_nil in Hn. congruence.
Qed.
(** [group_by_day] from the empty object completes only when no date is
    an inherited property name, and then every array it stores has at
    least one item: [items[0]] in the second loop is an item. *)
Lemma group_by_day_Normal lst groups :
  group_by_day lst ∅ = Normal groups →
  Forall day_ok lst ∧ groups = foldl add_item ∅ lst.
Proof.
  intros Hgroups. destruct (decide (Forall day_ok lst)) as [Hok|Hbad].
  - rewrite group_by_day_ok in Hgroups by done. by injection Hgroups as <-.
  - apply not_Forall_Exists in Hbad; [|apply _].
    destruct (group_by_day_throw lst ∅) as [e He];
      [by intros; apply lookup_empty|done|congruence].
Qed.

Lemma group_by_day_nonempty lst groups d items :
  group_by_day lst ∅ = Normal groups → groups !! d = Some items →
  items = on_day d lst ∧ items ≠ [].
Proof.
  intros [_ ->]%group_by_day_Normal. rewrite grouped_lookup.
  destruct (on_day d lst); [done|]. by intros [= <-].
Qed.

(** In whatever order [Object.keys] lists the keys, [sort()] yields the
    same array. *)
Lemma sorted_keys_any_order groups (keys : list string) :
  keys ≡ₚ elements (dom groups) → merge_sort String.le keys = sorted_keys groups.
Proof.
  intros Hperm. unfold sorted_keys.
  apply (StronglySorted_unique String.le).
  - apply (StronglySorted_merge_sort _).
  - apply (StronglySorted_merge_sort _).
  - by rewrite !merge_sort_Permutation.
Qed.

End grouping.

(** ** The inner loop: the item closest to noon *)

Section inner_loop.
Implicit Types (it best sel : ForecastItem) (items : list ForecastItem).
Implicit Types (a b c bound : option Q).

Lemma nearer_trans a b c : nearer a b → nearer b c → nearer a c.
Proof.
  destruct a, b, c; simpl; try done. apply Qlt_trans.
Qed.

Lemma nearer_not_farther a b c : nearer a b → not_farther b c → nearer a c.
Proof.
  destruct a, b, c; simpl; try done. apply Qlt_le_trans.
Qed.

Lemma has_time_hour it :
  has_time it →
  ∃ hour, hour_of it = Normal hour ∧
    Math_abs (sub (Finite 12) hour) =
      match hour_distance it with Some d => Finite d | None => NaN end.
Proof.
  intros [time Htime]. unfold hour_distance, hour_of. rewrite Htime.
  eexists; split; [done|].
  destruct (Number (slice0 2 time)) as [|b|h] eqn:Hn; simpl; try done.
  by apply Number_not_Inf in Hn.
Qed.

Lemma no_time_hour it : ¬ has_time it → ∃ e, hour_of it = Throw e.
Proof.
  unfold has_time, hour_of. intros Hno.
  destruct (split " " (dt_txt it) !! 1%nat); [|by eauto].
  exfalso. by apply Hno.
Qed.

Lemma lt_distance_bound a bound :
  if lt (match a with Some d => Finite d | None => NaN end) (bound_number bound)
  then nearer a bound else not_farther bound a.
Proof.
  destruct a as [x|], bound as [y|]; simpl; try done.
  destruct (Qltb x y) eqn:Hlt.
  - by apply Qltb_lt in Hlt.
  - by apply Qltb_ge in Hlt.
Qed.

Lemma closest_to_noon_spec items best bound :
  Forall has_time items →
  ∃ sel, closest_to_noon items best (bound_number bound) = Normal sel ∧
    ((sel = best ∧ Forall (λ it, not_farther bound (hour_distance it)) items) ∨
     (nearer (hour_distance sel) bound ∧ first_closest items sel)).
Proof.
  intros Htime. revert best bound.
  induction Htime as [|it items Hit _ IH]; intros best bound.
  { exists best. split; [done|]. left. by split. }
  destruct (has_time_hour it Hit) as (hour & Hhour & Hdiff).
  cbn [closest_to_noon]. rewrite Hhour. cbn [mbind completion_bind]. rewrite Hdiff.
  pose proof (lt_distance_bound (hour_distance it) bound) as Hnear.
  destruct (lt _ (bound_number bound)).
  - destruct (hour_distance it) as [d|] eqn:Hd; [|done].
    destruct (IH it (Some d)) as (sel & Hsel & Hcase).
    exists sel. split; [exact Hsel|]. right.
    destruct Hcase as [[-> Hall]|[Hlt (before & after & -> & Hb & Ha)]].
    + rewrite Hd. split; [done|]. exists [], items. by rewrite Hd.
    + split; [by eapply nearer_trans|].
      exists (it :: before), after. split_and!; [done| |done].
      constructor; [by rewrite Hd|done].
  - destruct (IH best bound) as (sel & Hsel & Hcase).
    exists sel. split; [exact Hsel|].
    destruct Hcase as [[-> Hall]|[Hlt (before & after & -> & Hb & Ha)]].
    + left. split; [done|]. by constructor.
    + right. split; [done|].
      exists (it :: before), after. split_and!; [done| |done].
      constructor; [by eapply nearer_not_farther|done].
Qed.

Lemma closest_to_noon_throw items best diff :
  Exists (λ it, ¬ has_time it) items →
  ∃ e, closest_to_noon items best diff = Throw e.
Proof.
  intros Hex. revert best diff.
  induction items as [|it items IH]; intros best diff.
  { by apply Exists_nil in Hex. }
  simpl. destruct (decide (has_time it)) as [Hit|Hno].
  - apply Exists_cons in Hex as [?|Hex]; [done|].
    destruct (has_time_hour it Hit) as (hour & -> & _).
    cbn [mbind completion_bind].
    destruct (lt _ diff); by apply IH.
  - destruct (no_time_hour it Hno) as [e ->]. simpl. eauto.
Qed.

(** The call made for one day: [best] starts at [items[0]] and
    [bestDiff] at [Infinity]. *)
Lemma closest_to_noon_first first rest :
  Forall has_time (first :: rest) →
  ∃ sel, closest_to_noon (first :: rest) first Infinity = Normal sel ∧
    first_closest (first :: rest) sel.
Proof.
  intros Htime.
  destruct (closest_to_noon_spec (first :: rest) first None Htime)
    as (sel & Hsel & Hcase).
  exists sel. split; [exact Hsel|].
  destruct Hcase as [[-> Hall]|[_ Hfirst]]; [|done].
  exists [], rest. split_and!; [done|done|].
  apply Forall_cons in Hall as [_ Hall].
  eapply Forall_impl; [exact Hall|]. intros it. simpl.
  destruct (hour_distance it); [done|]. intros _. by destruct (hour_distance first).
Qed.
End inner_loop.

(** ** The outer loop and the sorted dates *)

Section outer_loop.
Implicit Types (lst results picks : list ForecastItem) (days : list string).

Lemma sorted_keys_grouped lst : sorted_keys (foldl add_item ∅ lst) = sorted_days lst.
Proof. unfold sorted_keys, sorted_days, distinct_days. by rewrite grouped_dom. Qed.

Lemma elem_of_sorted_days lst d : d ∈ sorted_days lst ↔ d ∈ day_of <$> lst.
Proof.
  unfold sorted_days, distinct_days.
  rewrite merge_sort_Permutation, elem_of_elements, elem_of_list_to_set. done.
Qed.

Lemma NoDup_sorted_days lst : NoDup (sorted_days lst).
Proof.
  unfold sorted_days. rewrite merge_sort_Permutation. apply NoDup_elements.
Qed.

Lemma length_sorted_days lst : length (sorted_days lst) = size (distinct_days lst).
Proof.
  unfold sorted_days. by rewrite merge_sort_Permutation.
Qed.

Lemma le_ne_date_lt a b : String.le a b → a ≠ b → date_lt a b.
Proof.
  unfold String.le, date_lt, String.leb, String.ltb. intros Hle Hne.
  destruct (String.compare a b) eqn:Hc; [|done|done].
  by apply String.compare_eq_iff in Hc.
Qed.

Lemma sorted_days_increasing lst : StronglySorted date_lt (sorted_days lst).
Proof.
  pose proof (NoDup_sorted_days lst) as Hnd.
  assert (StronglySorted String.le (sorted_days lst)) as Hs.
  { apply (StronglySorted_merge_sort _). }
  induction Hs as [|d days Hs IH Hall]; [constructor|].
  apply NoDup_cons in Hnd as [Hd Hnd].
  constructor; [by apply IH|].
  apply Forall_forall. intros d' Hd'.
  apply le_ne_date_lt; [by eapply Forall_forall in Hall|].
  intros ->. done.
Qed.

Lemma on_day_has_time lst d : Forall has_time lst → Forall has_time (on_day d lst).
Proof.
  rewrite !Forall_forall. intros Hall it Hin.
  apply list_elem_of_filter in Hin as [_ Hin]. by apply Hall.
Qed.

Lemma pick_each_day_spec lst days results :
  Forall has_time lst →
  ∃ picks,
    pick_each_day (foldl add_item ∅ lst) days results = Normal (results ++ picks) ∧
    Forall2 (λ d sel, first_closest (on_day d lst) sel)
      (filter (λ d, d ∈ day_of <$> lst) days) picks.
Proof.
  intros Htime. revert results.
  induction days as [|d days IH]; intros results.
  { exists []. split; [by rewrite app_nil_r|constructor]. }
  cbn [pick_each_day]. rewrite grouped_lookup.
  destruct (on_day d lst) as [|first rest] eqn:Hd.
  - apply on_day_nil in Hd. rewrite filter_cons_False by done. apply IH.
  - assert (d ∈ day_of <$> lst) as Hin.
    { destruct (decide (d ∈ day_of <$> lst)) as [|Hn]; [done|].
      apply on_day_nil in Hn. congruence. }
    rewrite filter_cons_True by done.
    destruct (closest_to_noon_first first rest) as (sel & -> & Hsel).
    { rewrite <- Hd. by apply on_day_has_time. }
    cbn [mbind completion_bind].
    destruct (IH (results ++ [sel])) as (picks & -> & Hpicks).
    exists (sel :: picks). split; [by rewrite <- app_assoc|].
    constructor; [by rewrite Hd|done].
Qed.

Lemma pick_each_day_throw lst days results d :
  d ∈ days → Exists (λ it, ¬ has_time it) (on_day d lst) →
  ∃ e, pick_each_day (foldl add_item ∅ lst) days results = Throw e.
Proof.
  intros Hin Hbad. revert results.
  induction days as [|d' days IH]; intros results.
  { by apply elem_of_nil in Hin. }
  cbn [pick_each_day]. rewrite grouped_lookup.
  destruct (on_day d' lst) as [|first rest] eqn:Hd'.
  - apply elem_of_cons in Hin as [->|Hin].
    + rewrite Hd' in Hbad. by apply Exists_nil in Hbad.
    + by apply IH.
  - destruct (decide (Forall has_time (first :: rest))) as [Hall|Hnot].
    + destruct (closest_to_noon_first first rest Hall) as (sel & -> & _).
      cbn [mbind completion_bind].
      apply elem_of_cons in Hin as [->|Hin]; [|by apply IH].
      rewrite Hd' in Hbad. by apply Exists_not_Forall in Hbad.
    + apply not_Forall_Exists in Hnot; [|apply _].
      destruct (closest_to_noon_throw (first :: rest) first Infinity Hnot) as [e ->].
      cbn [mbind completion_bind]. eauto.
Qed.

(** [pickDaily] completes exactly on the well-formed inputs, and then
    holds, for each date in ascending order, the first item of that date
    closest to noon. *)
Lemma daily_results_cases lst :
  match daily_results lst with
  | Normal picks =>
      Forall well_formed lst ∧
      Forall2 (λ d sel, first_closest (on_day d lst) sel) (sorted_days lst) picks
  | Throw _ => ¬ Forall well_formed lst
  end.
Proof.
  unfold daily_results.
  destruct (decide (Forall day_ok lst)) as [Hok|Hbad].
  - rewrite group_by_day_ok by done. cbn [mbind completion_bind].
    rewrite sorted_keys_grouped.
    destruct (decide (Forall has_time lst)) as [Htime|Hno].
    + destruct (pick_each_day_spec lst (sorted_days lst) [] Htime)
        as (picks & -> & Hpicks).
      split.
      * apply Forall_forall. intros it Hit. split; by eapply Forall_forall.
      * rewrite filter_all in Hpicks; [done|].
        apply Forall_forall. intros d. by rewrite elem_of_sorted_days.
    + apply not_Forall_Exists in Hno; [|apply _].
      apply Exists_exists in Hno as (it & Hit & Hno).
      destruct (pick_each_day_throw lst (sorted_days lst) [] (day_of it)) as [e ->].
      * apply elem_of_sorted_days. by apply list_elem_of_fmap_2.
      * apply Exists_exists. exists it. split; [|done].
        apply list_elem_of_filter. by split.
      * intros Hwf. apply Hno. by eapply Forall_forall in Hwf as [_ ?].
  - apply not_Forall_Exists in Hbad; [|apply _].
    destruct (group_by_day_throw lst ∅) as [e ->]; [by intros; apply lookup_empty|done|].
    cbn [mbind completion_bind].
    intros Hwf. apply Exists_exists in Hbad as (it & Hit & Hbad).
    apply Hbad. by eapply Forall_forall in Hwf as [? _].
Qed.
End outer_loop.

(** ** What [pickDaily] returns *)

Section results.
Implicit Types (lst results out : list ForecastItem).

Lemma filter_split {A} (P : A → Prop) `{!∀ x, Decision (P x)} (l a b : list A) x :
  filter P l = a ++ x :: b →
  ∃ l1 l2, l = l1 ++ x :: l2 ∧ filter P l1 = a ∧ filter P l2 = b.
Proof.
  revert a. induction l as [|y l IH]; intros a Hf.
  { rewrite filter_nil in Hf. by destruct a. }
  destruct (decide (P y)) as [Hy|Hy].
  - rewrite filter_cons_True in Hf by done.
    destruct a as [|z a]; injection Hf as -> Hf.
    + exists [], l. by rewrite filter_nil.
    + destruct (IH a Hf) as (l1 & l2 & -> & <- & <-).
      exists (z :: l1), l2. by rewrite filter_cons_True.
  - rewrite filter_cons_False in Hf by done.
    destruct (IH a Hf) as (l1 & l2 & -> & <- & <-).
    exists (y :: l1), l2. by rewrite filter_cons_False.
Qed.

Lemma Forall_filter_impl {A} (P Q : A → Prop) `{!∀ x, Decision (P x)} (l : list A) :
  Forall Q (filter P l) → Forall (λ x, P x → Q x) l.
Proof.
  rewrite !Forall_forall. intros Hall x Hx HP. apply Hall.
  apply list_elem_of_filter. by split.
Qed.

Lemma first_closest_on_day lst d sel :
  first_closest (on_day d lst) sel →
  sel ∈ lst ∧ day_of sel = d ∧ noon_closest_in lst sel.
Proof.
  intros (before & after & Heq & Hb & Ha).
  assert (sel ∈ on_day d lst) as Hin.
  { rewrite Heq. apply elem_of_app. right. apply elem_of_cons. by left. }
  apply list_elem_of_filter in Hin as [Hd Hin].
  split_and!; [done|done|].
  apply filter_split in Heq as (l1 & l2 & -> & <- & <-).
  exists l1, l2. rewrite Hd. split_and!; [done| |].
  - by apply Forall_filter_impl in Hb.
  - by apply Forall_filter_impl in Ha.
Qed.

Lemma picks_on_days lst (days : list string) picks :
  Forall2 (λ d sel, first_closest (on_day d lst) sel) days picks →
  day_of <$> picks = days ∧
  Forall (λ sel, sel ∈ lst ∧ noon_closest_in lst sel) picks.
Proof.
  induction 1 as [|d sel days picks Hsel _ [IH1 IH2]]; [by split|].
  apply first_closest_on_day in Hsel as (Hin & <- & Hsel).
  split; [by rewrite fmap_cons, IH1|by constructor].
Qed.

(** The dates of [results] are the sorted dates of the input, and every
    element is the noon-closest item of its date. *)
Lemma daily_results_Normal lst results :
  daily_results lst = Normal results →
  day_of <$> results = sorted_days lst ∧
  Forall (λ sel, sel ∈ lst ∧ noon_closest_in lst sel) results.
Proof.
  intros Hres. pose proof (daily_results_cases lst) as Hcases.
  rewrite Hres in Hcases. destruct Hcases as [_ Hpicks].
  by apply picks_on_days.
Qed.

Lemma pickDaily_Normal lst out :
  pickDaily lst = Normal out →
  ∃ results, daily_results lst = Normal results ∧ out = take 5 results.
Proof.
  unfold pickDaily. destruct (daily_results lst) as [results|e]; [|done].
  cbn [mbind completion_bind]. intros [= <-]. by exists results.
Qed.

Lemma pickDaily_Throw lst e :
  pickDaily lst = Throw e → ¬ Forall well_formed lst.
Proof.
  unfold pickDaily. pose proof (daily_results_cases lst) as Hcases.
  destruct (daily_results lst) as [results|e']; [done|]. by intros _.
Qed.
End results.



(** ** More on the hour text *)

Lemma digit_not_space c d : digit c = Some d → is_space c = false ∧ c ≠ " "%char.
Proof.
  unfold digit, is_space. intros Hd.
  destruct ((48 <=? N_of_ascii c) && (N_of_ascii c <=? 57))%N eqn:Hr; [|done].
  apply andb_true_iff in Hr as [H1 H2].
  apply N.leb_le in H1, H2.
  assert (is_space_n : ((9 <=? N_of_ascii c) && (N_of_ascii c <=? 13)
            || (N_of_ascii c =? 32) || (N_of_ascii c =? 160))%N = false).
  { repeat (apply orb_false_iff; split).
    - apply andb_false_iff. right. apply N.leb_gt. lia.
    - apply N.eqb_neq. lia.
    - apply N.eqb_neq. lia. }
  split; [exact is_space_n|].
  intros ->. vm_compute in H1. done.
Qed.

Lemma split_on_date date time :
  (∀ c, c ∈ list_ascii_of_string date → c ≠ " "%char) →
  split_on " " (date +:+ String " " time) =
    (date, (split_on " " time).1 :: (split_on " " time).2).
Proof.
  induction date as [|c date IH]; intros Hdate; simpl.
  { by destruct (split_on " " time). }
  rewrite IH.
  - assert (c ≠ " "%char) as Hc by (apply Hdate; simpl; left).
    apply Ascii.eqb_neq in Hc. by rewrite Hc.
  - intros c' Hc'. apply Hdate. simpl. by right.
Qed.

Lemma slice0_2 a b rest : slice0 2 (String a (String b rest)) = String a (String b EmptyString).
Proof. unfold slice0. simpl. by destruct rest. Qed.

Lemma Number_two_digits h1 h2 d1 d2 :
  digit h1 = Some d1 → digit h2 = Some d2 →
  Number (String h1 (String h2 EmptyString)) = Finite (inject_Z (10 * d1 + d2)).
Proof.
  intros Hd1 Hd2.
  destruct (digit_not_space _ _ Hd1) as [Hs1 _].
  destruct (digit_not_space _ _ Hd2) as [Hs2 _].
  unfold Number, trim. simpl. rewrite Hs1. simpl. rewrite Hs2. simpl.
  by rewrite Hd1, Hd2.
Qed.

(** An item dated [date] whose time begins with the two digits [h1 h2] has
    the hour they spell. *)
Lemma hour_of_digits it date h1 h2 rest d1 d2 :
  dt_txt it = date +:+ String " " (String h1 (String h2 rest)) →
  (∀ c, c ∈ list_ascii_of_string date → c ≠ " "%char) →
  digit h1 = Some d1 → digit h2 = Some d2 →
  day_of it = date ∧ hour_of it = Normal (Finite (inject_Z (10 * d1 + d2))).
Proof.
  intros Htxt Hdate Hd1 Hd2.
  destruct (digit_not_space _ _ Hd1) as [Hs1 Hn1].
  destruct (digit_not_space _ _ Hd2) as [Hs2 Hn2].
  apply Ascii.eqb_neq in Hn1, Hn2.
  unfold hour_of. rewrite day_of_eq, split_lookup_1, Htxt, split_on_date by done.
  split; [done|]. simpl. rewrite Hn1, Hn2.
  destruct (split_on " " rest) as [seg segs]. simpl.
  by rewrite slice0_2, (Number_two_digits h1 h2 d1 d2).
Qed.

(** A text made of a date without space, a space and a time is
    well-formed, unless the date is an inherited property name; a date
    that begins with a digit is none. *)
Lemma dated_text_well_formed it date time :
  dt_txt it = date +:+ String " " time →
  (∀ c, c ∈ list_ascii_of_string date → c ≠ " "%char) →
  date ∉ Object_prototype_keys →
  well_formed it.
Proof.
  intros Htxt Hdate Hkey. split.
  - unfold day_ok. by rewrite day_of_eq, Htxt, split_on_date.
  - unfold has_time. rewrite split_lookup_1, Htxt, split_on_date by done. by eexists.
Qed.

Lemma digit_first_not_inherited c d rest :
  digit c = Some d → String c rest ∉ Object_prototype_keys.
Proof.
  intros Hd Hin. unfold Object_prototype_keys in Hin.
  repeat (apply elem_of_cons in Hin as [[= -> _]|Hin]; [by vm_compute in Hd|]).
  by apply elem_of_nil in Hin.
Qed.

Lemma StronglySorted_take {A} (R : relation A) n (l : list A) :
  StronglySorted R l → StronglySorted R (take n l).
Proof.
  intros Hs. rewrite <- (take_drop n l) in Hs.
  by apply StronglySorted_app_1_l in Hs.
Qed.

Lemma StronglySorted_consecutive {A} (R : relation A) (l : list A) i a b :
  StronglySorted R l → l !! i = Some a → l !! S i = Some b → R a b.
Proof.
  intros Hs. revert i.
  induction Hs as [|x l Hs IH Hall]; intros i Ha Hb; [done|].
  destruct i as [|i]; simpl in *.
  - injection Ha as ->. apply list_elem_of_lookup_2 in Hb.
    by eapply Forall_forall in Hall.
  - by eapply IH.
Qed.

(** ** [pickDaily] at work *)

(** A feed that starts late on the first day: one item per date, the one
    nearest to noon, in date order whatever the order of the input. *)
Example pickDaily_two_days :
  pickDaily (sample_item <$> ["2024-05-02 06:00:00"; "2024-05-01 21:00:00";
                              "2024-05-02 18:00:00"; "2024-05-02 12:00:00"])
    = Normal (sample_item <$> ["2024-05-01 21:00:00"; "2024-05-02 12:00:00"]).
Proof. by vm_compute. Qed.

(** Seven dates in, five out. *)
Example pickDaily_seven_days :
  pickDaily (sample_item <$> ["2024-05-01 12:00:00"; "2024-05-02 12:00:00";
                              "2024-05-03 12:00:00"; "2024-05-04 12:00:00";
                              "2024-05-05 12:00:00"; "2024-05-06 12:00:00";
                              "2024-05-07 12:00:00"])
    = Normal (sample_item <$> ["2024-05-01 12:00:00"; "2024-05-02 12:00:00";
                               "2024-05-03 12:00:00"; "2024-05-04 12:00:00";
                               "2024-05-05 12:00:00"]).
Proof. by vm_compute. Qed.

(** An hour text that is no number loses against one that is; among
    unreadable hours the first item stays. *)
Example pickDaily_unreadable_hours :
  pickDaily (sample_item <$> ["2024-05-01 xx:00"; "2024-05-01 23:00";
                              "2024-05-02 aa"; "2024-05-02 bb"])
    = Normal (sample_item <$> ["2024-05-01 23:00"; "2024-05-02 aa"]).
Proof. by vm_compute. Qed.

(** Without a time part, and with a date that every object inherits as a
    property, [pickDaily] throws. *)
Example pickDaily_throws :
  pickDaily [sample_item "2024-05-01"] =
    Throw (TypeError "Cannot read properties of undefined (reading 'slice')") ∧
  pickDaily [sample_item "constructor 12:00:00"] =
    Throw (TypeError "groups[day].push is not a function").
Proof. by vm_compute. Qed.

(** ** The properties of [pickDaily] *)

(** C2: in the array [results] that [pickDaily] builds, every date of the
    input has its representative, one only, and each representative is, among the
    items of its date, the first one in input order whose hour is at the
    least distance from 12 (an unreadable hour counting as farther than
    any hour); [pickDaily] returns the first five of [results], and throws
    only on an input that is not well-formed.  The hour is the number
    spelled by the two digits after the space.  With hours 3, 9, 15 and 21
    the hour-9 item is chosen. *)
Theorem pickDaily_noon_closest (lst : list ForecastItem) :
  match daily_results lst with
  | Normal results =>
      pickDaily lst = Normal (take 5 results) ∧
      (∀ it, it ∈ lst → ∃ sel, sel ∈ results ∧ day_of sel = day_of it) ∧
      NoDup (day_of <$> results) ∧
      (∀ sel, sel ∈ results → sel ∈ lst ∧ noon_closest_in lst sel)
  | Throw e => pickDaily lst = Throw e ∧ ¬ Forall well_formed lst
  end ∧
  (∀ it date h1 h2 rest d1 d2,
     dt_txt it = date +:+ String " " (String h1 (String h2 rest)) →
     (∀ c, c ∈ list_ascii_of_string date → c ≠ " "%char) →
     digit h1 = Some d1 → digit h2 = Some d2 →
     day_of it = date ∧
     hour_distance it = Some (Qabs (12 - inject_Z (10 * d1 + d2)))) ∧
  (∀ a b c d,
     hour_of a = Normal (Finite 3) → hour_of b = Normal (Finite 9) →
     hour_of c = Normal (Finite 15) → hour_of d = Normal (Finite 21) →
     ∀ sel, first_closest [a; b; c; d] sel → sel = b) ∧
  pickDaily (sample_item <$> ["2024-05-01 03:00:00"; "2024-05-01 09:00:00";
                              "2024-05-01 15:00:00"; "2024-05-01 21:00:00"])
    = Normal [sample_item "2024-05-01 09:00:00"].
Proof.
  split_and!.
  - destruct (daily_results lst) as [results|e] eqn:Hres.
    + destruct (daily_results_Normal lst results Hres) as [Hdays Hsel].
      split_and!.
      * unfold pickDaily. by rewrite Hres.
      * intros it Hit.
        assert (day_of it ∈ day_of <$> results) as Hin.
        { rewrite Hdays. apply elem_of_sorted_days. by apply list_elem_of_fmap_2. }
        apply list_elem_of_fmap in Hin as (sel & Heq & Hin). eauto.
      * rewrite Hdays. apply NoDup_sorted_days.
      * intros sel Hin. by eapply Forall_forall in Hsel.
    + assert (pickDaily lst = Throw e) as Hpick.
      { unfold pickDaily. by rewrite Hres. }
      split; [done|]. by eapply pickDaily_Throw.
  - intros it date h1 h2 rest d1 d2 Htxt Hdate Hd1 Hd2.
    destruct (hour_of_digits it date h1 h2 rest d1 d2) as [Hday Hhour]; try done.
    unfold hour_distance. by rewrite Hhour.
  - intros a b c d Ha Hb Hc Hd sel (before & after & Heq & Hbefore & Hafter).
    assert (hour_distance a = Some (Qabs (12 - 3))) as Ha'
      by (unfold hour_distance; by rewrite Ha).
    assert (hour_distance b = Some (Qabs (12 - 9))) as Hb'
      by (unfold hour_distance; by rewrite Hb).
    assert (hour_distance c = Some (Qabs (12 - 15))) as Hc'
      by (unfold hour_distance; by rewrite Hc).
    assert (hour_distance d = Some (Qabs (12 - 21))) as Hd'
      by (unfold hour_distance; by rewrite Hd).
    destruct before as [|x1 [|x2 [|x3 [|x4 before]]]]; simpl in Heq.
    + injection Heq as -> <-.
      apply Forall_cons in Hafter as [Hafter _].
      rewrite Ha', Hb' in Hafter. vm_compute in Hafter. by destruct Hafter.
    + by injection Heq as _ ->.
    + injection Heq as _ -> -> _.
      apply Forall_cons in Hbefore as [_ Hbefore].
      apply Forall_cons in Hbefore as [Hbefore _].
      rewrite Hb', Hc' in Hbefore. by vm_compute in Hbefore.
    + injection Heq as -> _ _ -> _.
      apply Forall_cons in Hbefore as [Hbefore _].
      rewrite Ha', Hd' in Hbefore. by vm_compute in Hbefore.
    + injection Heq as _ _ _ _ Heq. by destruct before.
  - by vm_compute.
Qed.

(** C3: the output has as many elements as the input has distinct dates,
    at most five; [pickDaily] throws only on an input that is not
    well-formed; the empty input yields the empty output. *)
Theorem pickDaily_length (lst : list ForecastItem) :
  pickDaily [] = Normal [] ∧
  match pickDaily lst with
  | Normal out => length out = (size (distinct_days lst) `min` 5)%nat
  | Throw _ => ¬ Forall well_formed lst
  end.
Proof.
  split; [by vm_compute|].
  destruct (pickDaily lst) as [out|e] eqn:Hout.
  - apply pickDaily_Normal in Hout as (results & Hres & ->).
    apply daily_results_Normal in Hres as [Hdays _].
    rewrite length_take, <- length_sorted_days, <- Hdays, length_fmap. lia.
  - by eapply pickDaily_Throw.
Qed.

(** C4: the dates of the output increase strictly from each element to the
    next, and no date occurs twice. *)
Theorem pickDaily_dates_increasing (lst : list ForecastItem) :
  match pickDaily lst with
  | Normal out =>
      (∀ i a b, out !! i = Some a → out !! S i = Some b →
                date_lt (day_of a) (day_of b)) ∧
      StronglySorted date_lt (day_of <$> out) ∧
      NoDup (day_of <$> out)
  | Throw _ => ¬ Forall well_formed lst
  end.
Proof.
  destruct (pickDaily lst) as [out|e] eqn:Hout; [|by eapply pickDaily_Throw].
  apply pickDaily_Normal in Hout as (results & Hres & ->).
  apply daily_results_Normal in Hres as [Hdays _].
  assert (StronglySorted date_lt (day_of <$> take 5 results)) as Hsorted.
  { rewrite fmap_take, Hdays. apply StronglySorted_take, sorted_days_increasing. }
  split_and!; [|done|].
  - intros i a b Ha Hb.
    apply (StronglySorted_consecutive _ _ i (day_of a) (day_of b) Hsorted).
    + by rewrite list_lookup_fmap, Ha.
    + by rewrite list_lookup_fmap, Hb.
  - rewrite fmap_take, Hdays.
    eapply sublist_NoDup; [apply NoDup_sorted_days|apply sublist_take].
Qed.

(** C10: every element of the output is an element of the input, and the
    element at position [i] carries the [i]-th smallest date of the input:
    the dates of the output are the first five of the input's distinct
    dates in ascending order. *)
Theorem pickDaily_elements (lst : list ForecastItem) :
  (StronglySorted date_lt (sorted_days lst) ∧
   ∀ d, d ∈ sorted_days lst ↔ ∃ it, it ∈ lst ∧ day_of it = d) ∧
  match pickDaily lst with
  | Normal out =>
      (∀ x, x ∈ out → x ∈ lst) ∧
      day_of <$> out = take 5 (sorted_days lst) ∧
      (∀ i x, out !! i = Some x → sorted_days lst !! i = Some (day_of x))
  | Throw _ => ¬ Forall well_formed lst
  end.
Proof.
  split.
  { split; [apply sorted_days_increasing|].
    intros d. rewrite elem_of_sorted_days, list_elem_of_fmap.
    split; intros (it & Hd & Hit); eauto. }
  destruct (pickDaily lst) as [out|e] eqn:Hout; [|by eapply pickDaily_Throw].
  apply pickDaily_Normal in Hout as (results & Hres & ->).
  apply daily_results_Normal in Hres as [Hdays Hsel].
  split_and!.
  - intros x Hx. apply elem_of_take in Hx as (i & Hx & _).
    apply list_elem_of_lookup_2 in Hx.
    by eapply Forall_forall in Hsel as [? _].
  - by rewrite fmap_take, Hdays.
  - intros i x Hx. apply lookup_take_Some in Hx as [Hx _].
    by rewrite <- Hdays, list_lookup_fmap, Hx.
Qed.

(** ** The properties of [runSearch] *)

(** C8: on a city text that is blank once trimmed, [runSearch] returns at
    once: the state, the storage and the list of requests are the ones it
    found. *)
Theorem runSearch_blank KEY net (cityName : string) (w0 : World) :
  trim cityName = EmptyString →
  runSearch KEY net cityName w0 = (Normal tt, w0).
Proof.
  intros Hblank. unfold runSearch. by rewrite Hblank.
Qed.

Lemma runSearch_blank_witness :
  trim "   " = EmptyString ∧
  runSearch None net_ok "   " initial_world = (Normal tt, initial_world).
Proof.
  split; [reflexivity|].
  apply (runSearch_blank None net_ok "   " initial_world). reflexivity.
Defined.

(** C7: without an API key, a search for a non-blank text sets [error] to
    the "Missing API key" message and returns: no request is made, and
    nothing else changes. *)
Theorem runSearch_missing_key KEY net (cityName : string) (w0 : World) :
  trim cityName ≠ EmptyString → has_key KEY = false →
  let w' := (runSearch KEY net cityName w0).2 in
  (runSearch KEY net cityName w0).1 = Normal tt ∧
  requests w' = requests w0 ∧ shown w' = shown w0 ∧
  error (app w') =
    Some "Missing API key. Set VITE_OPENWEATHER_API_KEY environment variable." ∧
  (∃ rest, error (app w') = Some ("Missing API key" +:+ rest)) ∧
  localStorage w' = localStorage w0 ∧
  (units (app w'), q (app w'), city (app w'), now (app w'), fc (app w'),
   loading (app w'), recent (app w')) =
  (units (app w0), q (app w0), city (app w0), now (app w0), fc (app w0),
   loading (app w0), recent (app w0)).
Proof.
  intros Htext Hkey. unfold runSearch, truthy.
  apply String.eqb_neq in Htext. rewrite Htext, Hkey. simpl.
  split_and!; try done. by eexists.
Qed.

Lemma runSearch_missing_key_witness :
  let w' := (runSearch None net_ok "Paris" initial_world).2 in
  requests w' = [] ∧
  error (app w') =
    Some "Missing API key. Set VITE_OPENWEATHER_API_KEY environment variable.".
Proof.
  destruct (runSearch_missing_key None net_ok "Paris" initial_world)
    as (_ & Hreq & _ & Herr & _); [done|reflexivity|].
  split; [exact Hreq|exact Herr].
Defined.

(** *** What a search leaves behind *)

Section outcomes.
Variable KEY : option string.
Variable net : Network.
Variable cityName : string.
Variable w0 : World.
Hypothesis Htext : trim cityName ≠ EmptyString.
Hypothesis Hkey : has_key KEY = true.

#[local] Arguments geocode_settles : simpl never.
#[local] Arguments current_settles : simpl never.
#[local] Arguments forecast_settles : simpl never.
#[local] Arguments Promise_all : simpl never.
#[local] Arguments pickDaily : simpl never.
#[local] Arguments next_recent : simpl never.
#[local] Arguments JSON.stringify : simpl never.

(** Past its two guards, [runSearch] is decided by how the geocoder, the
    two weather calls and [pickDaily] end. *)
Lemma runSearch_running :
  runSearch KEY net cityName w0 =
    (Normal tt,
     match geocode_settles net cityName with
     | Throw e =>
         after_search w0 (failed_app (app w0) (city (app w0)) (shown_message e))
           [GeocodeRequest cityName] [searching (app w0)]
     | Normal None =>
         after_search w0 (failed_app (app w0) (city (app w0)) "City not found")
           [GeocodeRequest cityName] [searching (app w0)]
     | Normal (Some g) =>
         let sent := sent_requests cityName g (units (app w0)) in
         let seen := [searching (app w0); fetching (app w0) g] in
         match weather_settles net g (units (app w0)) with
         | Throw e =>
             after_search w0 (failed_app (app w0) (Some g) (shown_message e)) sent seen
         | Normal (w, f) =>
             match pickDaily (list_ f) with
             | Throw e =>
                 after_search w0 (failed_app (app w0) (Some g) (shown_message e))
                   sent seen
             | Normal daily =>
                 let next := next_recent (recent (app w0)) (name g) in
                 {| app := {| units := units (app w0); q := q (app w0);
                              city := Some g; now := Some w; fc := Some daily;
                              loading := false; error := None; recent := next |};
                    localStorage :=
                      <[RECENT_KEY := JSON.stringify next]> (localStorage w0);
                    requests := requests w0 ++ sent;
                    shown := shown w0 ++ seen |}
             end
         end
     end).
Proof using Htext Hkey.
  unfold runSearch, truthy, try_catch_finally, geocode, current, forecast.
  apply String.eqb_neq in Htext. rewrite Htext, Hkey.
  unfold weather_settles, after_search, sent_requests, saveRecent, await, eval, throw,
    setCity, setNow, setFc, setLoading, setError, setRecent, modify, fetch, setItem.
  unfold mbind, M_bind, mret, M_ret. simpl.
  destruct (geocode_settles net cityName) as [[g|]|e]; simpl; [|done|done].
  destruct (Promise_all _ _ _) as [[w f]|e]; simpl.
  - destruct (pickDaily (list_ f)) as [daily|e]; simpl; by rewrite <- !app_assoc.
  - by rewrite <- !app_assoc.
Qed.

End outcomes.

(** Whatever the search and however it ends, weather and forecast stay
    paired, on the screen and in the final state. *)
Lemma runSearch_paired KEY net (cityName : string) (w0 : World) :
  paired (app w0) → Forall paired (shown w0) →
  let w' := (runSearch KEY net cityName w0).2 in
  paired (app w') ∧ Forall paired (shown w').
Proof.
  intros Hp Hshown w'. unfold w'.
  destruct (decide (trim cityName = EmptyString)) as [Hblank|Htext].
  { unfold runSearch. by rewrite Hblank. }
  destruct (has_key KEY) eqn:Hkey.
  - rewrite (runSearch_running KEY net cityName w0 Htext Hkey).
    assert (∀ c msg, paired (failed_app (app w0) c msg)) as Hfailed.
    { intros c msg. unfold paired. simpl. split; by intros [? ?]. }
    assert (Forall paired (shown w0 ++ [searching (app w0)])) as Hone.
    { apply Forall_app. split; [done|]. by constructor. }
    assert (∀ g, Forall paired (shown w0 ++ [searching (app w0); fetching (app w0) g]))
      as Htwo.
    { intros g. apply Forall_app. split; [done|].
      repeat (constructor; [exact Hp|]). constructor. }
    destruct (geocode_settles net cityName) as [[g|]|e]; simpl; [|done|done].
    destruct (weather_settles net g (units (app w0))) as [[w f]|e]; simpl; [|done].
    destruct (pickDaily (list_ f)) as [daily|e]; simpl; [|done].
    split; [|done]. unfold paired. simpl. split; by eauto.
  - unfold runSearch, truthy. apply String.eqb_neq in Htext.
    by rewrite Htext, Hkey.
Qed.

(** *** The recent-city list *)

Section recent_list.
Implicit Types (names before kept : list string) (n : string).

Lemma next_recent_cons before n :
  next_recent before n = n :: take 5 (filter (λ c, ¬ same_city c n) before).
Proof. done. Qed.

Lemma next_recent_on_prefix names rest n :
  Forall (λ c, ¬ same_city c n) names →
  ∃ rest', next_recent (take 6 (names ++ rest)) n = take 6 (n :: names ++ rest').
Proof.
  intros Hnames. rewrite next_recent_cons.
  rewrite take_app, filter_app, (filter_all _ (take 6 names))
    by by apply Forall_take.
  destruct (decide (length names ≤ 6)) as [Hle|Hgt].
  - rewrite (take_ge names) by done. by eexists.
  - exists []. simpl. f_equal.
    rewrite take_app_le by (rewrite length_take; lia).
    rewrite take_take, app_nil_r. by rewrite Nat.min_l by lia.
Qed.

Lemma foldl_next_recent names before :
  names ≠ [] → NoDup (toLowerCase <$> names) →
  ∃ rest, foldl next_recent before names = take 6 (reverse names ++ rest).
Proof.
  induction names as [|n names IH] using rev_ind; intros Hne Hnd; [done|].
  rewrite foldl_app, reverse_app. simpl.
  rewrite fmap_app in Hnd. apply NoDup_app in Hnd as (Hnd & Hfresh & _).
  destruct names as [|n' names'] using rev_ind.
  { simpl. rewrite next_recent_cons. by eexists. }
  clear IHnames'.
  destruct IH as [rest ->]; [by destruct names'|done|].
  destruct (next_recent_on_prefix (reverse (names' ++ [n'])) rest n) as [rest' ->].
  { apply Forall_forall. intros c Hc Hsame.
    rewrite elem_of_reverse in Hc.
    apply (Hfresh (toLowerCase c)); [by apply list_elem_of_fmap_2|].
    rewrite Hsame. simpl. apply elem_of_cons. by left. }
  by exists rest'.
Qed.

(** Seven searches for cities that differ beyond the case of their
    letters leave the last six, most recent first. *)
Lemma seven_cities_keep_six names before :
  NoDup (toLowerCase <$> names) → length names = 7 →
  foldl next_recent before names = reverse (drop 1 names).
Proof.
  intros Hnd Hlen.
  destruct (foldl_next_recent names before) as [rest ->]; [by destruct names|done|].
  destruct names as [|n1 names]; [done|]. simpl in *.
  rewrite reverse_cons, <- app_assoc, take_app_le
    by (rewrite length_reverse; lia).
  rewrite drop_0. apply take_ge. rewrite length_reverse. lia.
Qed.

End recent_list.

Lemma search_each_recent KEY net names w0 :
  has_key KEY = true →
  Forall (λ n, trim n ≠ EmptyString ∧ found_as_named net (units (app w0)) n) names →
  units (app (search_each KEY net names w0)) = units (app w0) ∧
  recent (app (search_each KEY net names w0)) =
    foldl next_recent (recent (app w0)) names.
Proof.
  intros Hkey Hall. revert w0 Hall.
  induction names as [|n names IH]; intros w0 Hall; [done|].
  apply Forall_cons in Hall as [[Htext (g & w & f & daily & Hg & Hn & Hw & Hd)] Hall].
  unfold search_each in *. simpl.
  rewrite (runSearch_running KEY net n w0 Htext Hkey), Hg. simpl.
  rewrite Hw, Hd. simpl.
  destruct (IH {| app := {| units := units (app w0); q := q (app w0);
                            city := Some g; now := Some w; fc := Some daily;
                            loading := false; error := None;
                            recent := next_recent (recent (app w0)) (name g) |};
                  localStorage :=
                    <[RECENT_KEY := JSON.stringify (next_recent (recent (app w0)) (name g))]>
                      (localStorage w0);
                  requests := requests w0 ++ sent_requests n g (units (app w0));
                  shown := shown w0 ++ [searching (app w0); fetching (app w0) g] |})
    as [IHu IHr]; [done|].
  rewrite IHu, IHr. simpl. by rewrite Hn.
Qed.

(** C6: a search that succeeds in full replaces the recent list by the
    resolved name followed by the former entries that differ from it
    beyond the case of their letters, cut to six entries, and stores that
    list, which the next start reads back; seven such searches in a row,
    for names that differ beyond case, leave exactly the last six, most
    recent first. *)
Theorem successful_search_recent KEY net (cityName : string) (w0 : World) g w f daily :
  trim cityName ≠ EmptyString → has_key KEY = true →
  geocode_settles net cityName = Normal (Some g) →
  weather_settles net g (units (app w0)) = Normal (w, f) →
  pickDaily (list_ f) = Normal daily →
  let w' := (runSearch KEY net cityName w0).2 in
  recent (app w') =
    take 6 (name g :: filter (λ c, ¬ same_city c (name g)) (recent (app w0))) ∧
  head (recent (app w')) = Some (name g) ∧
  length (recent (app w')) ≤ 6 ∧
  (∀ c, c ∈ drop 1 (recent (app w')) → ¬ same_city c (name g) ∧ c ∈ recent (app w0)) ∧
  localStorage w' !! RECENT_KEY = Some (JSON.stringify (recent (app w'))) ∧
  loadRecent (localStorage w') = Normal (JSON.of_strings (recent (app w'))) ∧
  (∀ names,
     Forall (λ n, trim n ≠ EmptyString ∧ found_as_named net (units (app w0)) n) names →
     NoDup (toLowerCase <$> names) → length names = 7 →
     recent (app (search_each KEY net names w0)) = reverse (drop 1 names) ∧
     length (recent (app (search_each KEY net names w0))) = 6).
Proof.
  intros Htext Hkey Hg Hw Hd w'.
  assert (recent (app w') = next_recent (recent (app w0)) (name g)) as Hrecent.
  { unfold w'. rewrite (runSearch_running KEY net cityName w0 Htext Hkey), Hg. simpl.
    by rewrite Hw, Hd. }
  assert (localStorage w' !! RECENT_KEY = Some (JSON.stringify (recent (app w'))))
    as Hstored.
  { unfold w'. rewrite (runSearch_running KEY net cityName w0 Htext Hkey), Hg. simpl.
    rewrite Hw, Hd. simpl. by rewrite lookup_insert_eq. }
  split_and!.
  - by rewrite Hrecent.
  - by rewrite Hrecent.
  - rewrite Hrecent. unfold next_recent. rewrite length_take. lia.
  - intros c. rewrite Hrecent, next_recent_cons. simpl. rewrite drop_0.
    intros Hc. apply elem_of_take in Hc as (i & Hc & _).
    apply list_elem_of_lookup_2, list_elem_of_filter in Hc. done.
  - exact Hstored.
  - unfold loadRecent, stored_recent. rewrite Hstored.
    replace (truthy (JSON.stringify (recent (app w')))) with true by done.
    by rewrite parse_stringify.
  - intros names Hall Hnd Hlen.
    destruct (search_each_recent KEY net names w0 Hkey Hall) as [_ ->].
    rewrite seven_cities_keep_six by done.
    split; [done|]. rewrite length_reverse, length_drop. lia.
Qed.

(** *** Failed searches *)

(** C1, as the code has it: a search that fails at the geocoder (the
    request fails, or nothing matches) or at one of the two weather calls
    ends with [error] set to the failure's message (to "Something went
    wrong" when that message is empty), [now] and [fc] null and [loading]
    false; [city] is not cleared: it keeps its former value when the
    geocoder failed, and is the place just found when a weather call
    failed. *)
Theorem failed_search_state KEY net (cityName : string) (w0 : World) :
  trim cityName ≠ EmptyString → has_key KEY = true →
  let a' := app (runSearch KEY net cityName w0).2 in
  (∀ e, geocode_settles net cityName = Throw e →
        failed_with a' (shown_message e) (city (app w0))) ∧
  (geocode_settles net cityName = Normal None →
        failed_with a' "City not found" (city (app w0))) ∧
  (∀ g e, geocode_settles net cityName = Normal (Some g) →
          weather_settles net g (units (app w0)) = Throw e →
          failed_with a' (shown_message e) (Some g)) ∧
  (∀ e, message e ≠ EmptyString → shown_message e = message e).
Proof.
  intros Htext Hkey a'. unfold a'.
  rewrite (runSearch_running KEY net cityName w0 Htext Hkey).
  split_and!.
  - by intros e ->.
  - by intros ->.
  - intros g e -> Hw. simpl. by rewrite Hw.
  - intros e He. unfold shown_message, truthy.
    apply String.eqb_neq in He. by rewrite He.
Qed.

Lemma failed_search_state_witness :
  let a' := app (runSearch (Some "k") net_forecast_down "Lyon" world_paris).2 in
  error a' = Some "Forecast data failed to load" ∧ now a' = None ∧ fc a' = None ∧
  city a' = Some (sample_geo "Lyon").
Proof.
  destruct (failed_search_state (Some "k") net_forecast_down "Lyon" world_paris)
    as (_ & _ & Hfetch & _); [done|reflexivity|].
  destruct (Hfetch (sample_geo "Lyon") (Error "Forecast data failed to load"))
    as (Herr & Hnow & Hfc & _ & Hcity); [reflexivity|reflexivity|].
  repeat split; assumption.
Defined.

(** C1 as stated fails: after Paris has been found, a search that matches
    nothing shows its error next to the city of the earlier search. *)
Lemma failed_search_keeps_city :
  let a' := app (runSearch (Some "k") net_no_match "Atlantis" world_paris).2 in
  error a' = Some "City not found" ∧ now a' = None ∧ fc a' = None ∧
  city a' = Some (sample_geo "Paris") ∧ city a' ≠ None.
Proof. by vm_compute. Qed.

(** C5: when the geocoder has found the place and one of the two weather
    calls fails, the search ends with [now] and [fc] both null and an
    error message.  While it waits, the screen shows the weather and the
    forecast of before the search: if those were both there or both
    missing, no state with exactly one of the two is ever produced. *)
Theorem fetch_failure_all_or_nothing KEY net (cityName : string) (w0 : World) g :
  trim cityName ≠ EmptyString → has_key KEY = true →
  geocode_settles net cityName = Normal (Some g) →
  (∃ e, current_settles net (lat g) (lon g) (units (app w0)) = Throw e) ∨
  (∃ e, forecast_settles net (lat g) (lon g) (units (app w0)) = Throw e) →
  let w' := (runSearch KEY net cityName w0).2 in
  now (app w') = None ∧ fc (app w') = None ∧
  (∃ msg, error (app w') = Some msg ∧ msg ≠ EmptyString) ∧ error (app w') ≠ None ∧
  paired (app w') ∧
  (∃ seen, shown w' = shown w0 ++ seen ∧
           Forall (λ s, now s = now (app w0) ∧ fc s = fc (app w0)) seen ∧
           (paired (app w0) → Forall paired seen)).
Proof.
  intros Htext Hkey Hg Hfail w'.
  assert (∃ e, weather_settles net g (units (app w0)) = Throw e) as [e He].
  { unfold weather_settles, Promise_all.
    destruct Hfail as [[e ->]|[e ->]]; repeat case_match; eauto. }
  unfold w'. rewrite (runSearch_running KEY net cityName w0 Htext Hkey), Hg. simpl.
  rewrite He. simpl.
  split_and!; try done.
  - eexists. split; [done|]. unfold shown_message, truthy.
    destruct (String.eqb_spec (message e) EmptyString) as [->|Hne]; done.
  - unfold paired. simpl. split; by intros [? ?].
  - exists [searching (app w0); fetching (app w0) g]. split_and!; [done| |].
    + by repeat constructor.
    + intros Hpaired. repeat (constructor; [exact Hpaired|]). constructor.
Qed.

Lemma fetch_failure_all_or_nothing_witness :
  let a' := app (runSearch (Some "k") net_forecast_down "Lyon" world_paris).2 in
  now a' = None ∧ fc a' = None ∧ error a' = Some "Forecast data failed to load".
Proof.
  destruct (fetch_failure_all_or_nothing (Some "k") net_forecast_down "Lyon"
              world_paris (sample_geo "Lyon"))
    as (Hnow & Hfc & _); [done|reflexivity|reflexivity| |].
  - right. eexists. reflexivity.
  - split; [exact Hnow|]. split; [exact Hfc|reflexivity].
Defined.

Lemma net_ok_found u n : found_as_named net_ok u n.
Proof. eexists _, _, _, _. split_and!; reflexivity. Defined.

Lemma successful_search_recent_witness :
  recent (app (runSearch (Some "k") net_ok "PARIS" world_paris).2) = ["PARIS"] ∧
  recent (app (search_each (Some "k") net_ok seven_names world_paris)) =
    ["Riga"; "Kiev"; "Bern"; "Rome"; "Oslo"; "Lyon"].
Proof.
  destruct (successful_search_recent (Some "k") net_ok "PARIS" world_paris
              (sample_geo "PARIS") (sample_now "x")
              (sample_forecast "x" ["2024-05-01 12:00:00"; "2024-05-02 12:00:00"])
              (sample_item <$> ["2024-05-01 12:00:00"; "2024-05-02 12:00:00"]))
    as (Hrecent & _ & _ & _ & _ & _ & Hseven);
    [done|reflexivity|reflexivity|reflexivity|by vm_compute|].
  split; [exact Hrecent|].
  destruct (Hseven seven_names) as [Hsix _]; [| |reflexivity|exact Hsix].
  - repeat (constructor; [split; [done|apply net_ok_found]|]). constructor.
  - apply (bool_decide_unpack _). by vm_compute.
Defined.

(** ** The initial recent list *)

(** What the initializer does with each stored text: reading never
    throws; an absent or empty entry, and a text that is not JSON, give the
    empty list; any other text gives the value it parses to; the text that
    [saveRecent] has stored gives back the list of strings it was written
    from. *)
Theorem loadRecent_soft (storage : gmap string string) :
  (∃ v, loadRecent storage = Normal v) ∧
  (storage !! RECENT_KEY = None → loadRecent storage = Normal (JSON.Arr [])) ∧
  (∀ text e, storage !! RECENT_KEY = Some text → JSON.parse text = Throw e →
             loadRecent storage = Normal (JSON.Arr [])) ∧
  (∀ text v, storage !! RECENT_KEY = Some text → JSON.parse text = Normal v →
             loadRecent storage = Normal v) ∧
  (∀ strings, storage !! RECENT_KEY = Some (JSON.stringify strings) →
              loadRecent storage = Normal (JSON.of_strings strings) ∧
              JSON.is_string_array (JSON.of_strings strings) = true).
Proof.
  assert (JSON.parse "[]" = Normal (JSON.Arr [])) as Hempty by reflexivity.
  assert (∀ v, JSON.parse "" ≠ Normal v) as Hblank by done.
  assert (∀ text, storage !! RECENT_KEY = Some text →
                  stored_recent storage = if truthy text then text else "[]"%string)
    as Hstored.
  { intros text Htext. unfold stored_recent. by rewrite Htext. }
  assert (∀ text v, storage !! RECENT_KEY = Some text → JSON.parse text = Normal v →
                    loadRecent storage = Normal v) as Hparsed.
  { intros text v Htext Hparse. unfold loadRecent, try_catch.
    rewrite (Hstored text Htext). unfold truthy.
    destruct (String.eqb_spec text EmptyString) as [->|Hne]; cbn [negb].
    - by apply Hblank in Hparse.
    - by rewrite Hparse. }
  split_and!.
  - unfold loadRecent, try_catch.
    destruct (JSON.parse (stored_recent storage)); eauto.
  - intros Hnone. unfold loadRecent, try_catch, stored_recent.
    by rewrite Hnone, Hempty.
  - intros text e Htext Hparse. unfold loadRecent, try_catch.
    rewrite (Hstored text Htext).
    destruct (truthy text); by rewrite ?Hparse, ?Hempty.
  - exact Hparsed.
  - intros strings Htext. split.
    + apply (Hparsed _ _ Htext), parse_stringify.
    + unfold JSON.of_strings, JSON.is_string_array.
      clear Htext. induction strings as [|s strings IH]; [done|].
      by rewrite fmap_cons.
Qed.

(** C9: the code breaks the claim.  The initializer of a state declared
    [string[]] guards the parse with [try] and [catch], and checks nothing
    of what a successful parse gives: the stored text [42] is returned as
    the number 42 and the stored text [null] as null, neither of them a
    list of strings. *)
Lemma loadRecent_not_a_list :
  loadRecent {[ RECENT_KEY := "42"%string ]} = Normal (JSON.Num "42") ∧
  JSON.is_string_array (JSON.Num "42") = false ∧
  loadRecent {[ RECENT_KEY := "null"%string ]} = Normal JSON.Null ∧
  JSON.is_string_array JSON.Null = false.
Proof. by vm_compute. Qed.

(** * Further properties of the program *)

(** ** More on [pickDaily] *)

Section summary.
Implicit Types (lst out : list ForecastItem) (groups : gmap string (list ForecastItem)).

Lemma group_by_day_message lst groups e :
  group_by_day lst groups = Throw e →
  e = TypeError "groups[day].push is not a function".
Proof.
  revert groups. induction lst as [|it lst IH]; intros groups; [done|].
  simpl. destruct (get_group groups (day_of it)); [by apply IH| |by apply IH].
  by intros [= <-].
Qed.

Lemma pickDaily_well_formed lst :
  Forall well_formed lst → ∃ out, pickDaily lst = Normal out.
Proof.
  intros Hwf. unfold pickDaily. pose proof (daily_results_cases lst) as Hcases.
  destruct (daily_results lst) as [results|e]; [|done].
  by exists (take 5 results).
Qed.

Lemma pickDaily_ill_formed lst :
  Exists (λ it, ¬ well_formed it) lst → ∃ e, pickDaily lst = Throw e.
Proof.
  intros Hbad. destruct (pickDaily lst) as [out|e] eqn:Hout; [|by exists e].
  apply pickDaily_Normal in Hout as (results & Hres & _).
  pose proof (daily_results_cases lst) as Hcases. rewrite Hres in Hcases.
  destruct Hcases as [Hwf _].
  apply Exists_exists in Hbad as (it & Hit & Hbad).
  destruct Hbad. by eapply Forall_forall in Hwf.
Qed.

Lemma date_lt_le a b : date_lt a b → String.le a b ∧ a ≠ b.
Proof.
  unfold date_lt, String.ltb, String.le, String.leb. intros Hlt.
  destruct (String.compare a b) eqn:Hc; try done.
  split; [done|]. intros ->.
  pose proof (String.compare_antisym b b) as Hanti. rewrite Hc in Hanti. done.
Qed.

Lemma date_lt_sorted (days : list string) :
  StronglySorted date_lt days → StronglySorted String.le days ∧ NoDup days.
Proof.
  induction 1 as [|d days _ [IHs IHn] Hall]; [by split; constructor|].
  split; constructor; try done.
  - eapply Forall_impl; [exact Hall|]. intros d' Hd. by apply date_lt_le in Hd as [? _].
  - intros Hin. eapply Forall_forall in Hall; [|done].
    by apply date_lt_le in Hall as [_ ?].
Qed.

Lemma sorted_days_sorted lst :
  StronglySorted date_lt (day_of <$> lst) → sorted_days lst = day_of <$> lst.
Proof.
  intros Hsorted. apply date_lt_sorted in Hsorted as [Hsorted Hnodup].
  apply (StronglySorted_unique String.le).
  - apply (StronglySorted_merge_sort _).
  - done.
  - unfold sorted_days, distinct_days. rewrite merge_sort_Permutation.
    by apply elements_list_to_set.
Qed.

Lemma on_day_single lst it :
  NoDup (day_of <$> lst) → it ∈ lst → on_day (day_of it) lst = [it].
Proof.
  unfold on_day. induction lst as [|x lst IH]; intros Hnodup Hin; [by apply elem_of_nil in Hin|].
  rewrite fmap_cons in Hnodup. apply NoDup_cons in Hnodup as [Hx Hnodup].
  rewrite filter_cons. apply elem_of_cons in Hin as [->|Hin].
  - rewrite decide_True by done. f_equal.
    apply (on_day_nil (day_of x) lst). done.
  - rewrite decide_False; [by apply IH|].
    intros Heq. apply Hx. rewrite Heq. by apply list_elem_of_fmap_2.
Qed.

Lemma first_closest_single it sel : first_closest [it] sel → sel = it.
Proof.
  intros (before & after & Heq & _).
  destruct before as [|b before]; [by injection Heq|].
  injection Heq as _ Heq. by destruct before.
Qed.

(** On a list that has one item per date, dates increasing, the two loops
    give the list back. *)
Lemma daily_results_sorted lst :
  Forall well_formed lst → StronglySorted date_lt (day_of <$> lst) →
  daily_results lst = Normal lst.
Proof.
  intros Hwf Hsorted. pose proof (daily_results_cases lst) as Hcases.
  destruct (daily_results lst) as [picks|e]; [|done].
  destruct Hcases as [_ Hpicks]. f_equal.
  rewrite (sorted_days_sorted lst Hsorted) in Hpicks.
  rewrite Forall2_fmap_l in Hpicks.
  assert (NoDup (day_of <$> lst)) as Hnodup.
  { rewrite <- (sorted_days_sorted lst Hsorted). apply NoDup_sorted_days. }
  symmetry. apply list_eq_Forall2. apply Forall2_same_length_lookup.
  split; [exact (Forall2_length _ _ _ Hpicks)|].
  intros i it sel Hit Hsel.
  pose proof (Forall2_lookup_lr _ _ _ _ _ _ Hpicks Hit Hsel) as Hfirst.
  simpl in Hfirst. rewrite on_day_single in Hfirst; [|done|by eapply list_elem_of_lookup_2].
  symmetry. by apply first_closest_single.
Qed.

Lemma pickDaily_results_sorted lst out :
  pickDaily lst = Normal out →
  Forall well_formed out ∧ length out ≤ 5 ∧ StronglySorted date_lt (day_of <$> out).
Proof.
  intros Hout. apply pickDaily_Normal in Hout as (results & Hres & ->).
  pose proof (daily_results_cases lst) as Hcases. rewrite Hres in Hcases.
  destruct Hcases as [Hwf _].
  apply daily_results_Normal in Hres as [Hdays Hin].
  split; [|split].
  - apply Forall_take. eapply Forall_impl; [exact Hin|].
    intros sel [Hsel _]. by eapply Forall_forall in Hwf.
  - rewrite length_take. lia.
  - rewrite fmap_take, Hdays. apply StronglySorted_take, sorted_days_increasing.
Qed.

Lemma on_day_elements (l1 l2 : list ForecastItem) :
  (∀ d, on_day d l1 = on_day d l2) → ∀ it, it ∈ l1 → it ∈ l2.
Proof.
  intros Hdays it Hit.
  assert (it ∈ on_day (day_of it) l1) as Hin by by apply list_elem_of_filter.
  rewrite Hdays in Hin. by apply list_elem_of_filter in Hin as [_ ?].
Qed.

(** X1: [pickDaily] returns exactly when every item of its input is well
    formed (the text has a space, and what precedes it is not the name of
    an inherited property), and throws exactly when some item is not,
    wherever that item stands: a single bad point, be it on a day that the
    cut to five would drop, loses the whole summary. *)
Theorem pickDaily_throws_iff lst :
  (Forall well_formed lst ↔ ∃ out, pickDaily lst = Normal out) ∧
  (Exists (λ it, ¬ well_formed it) lst ↔ ∃ e, pickDaily lst = Throw e).
Proof.
  split; split.
  - apply pickDaily_well_formed.
  - intros [out Hout]. apply pickDaily_Normal in Hout as (results & Hres & _).
    pose proof (daily_results_cases lst) as Hcases. rewrite Hres in Hcases. tauto.
  - apply pickDaily_ill_formed.
  - intros [e He]. apply pickDaily_Throw in He.
    apply not_Forall_Exists in He; [done|apply _].
Qed.

(** X2: the summary of a summary is that summary: [pickDaily] applied to
    a list it has returned returns the same list. *)
Theorem pickDaily_idempotent lst out :
  pickDaily lst = Normal out → pickDaily out = Normal out.
Proof.
  intros Hout. apply pickDaily_results_sorted in Hout as (Hwf & Hlen & Hsorted).
  unfold pickDaily. rewrite daily_results_sorted by done.
  cbn [mbind completion_bind]. by rewrite take_ge by lia.
Qed.

Lemma pickDaily_idempotent_witness :
  pickDaily (sample_item <$> ["2024-05-02 09:00:00"; "2024-05-01 15:00:00";
                              "2024-05-02 12:00:00"; "2024-05-01 21:00:00"])
    = Normal (sample_item <$> ["2024-05-01 15:00:00"; "2024-05-02 12:00:00"]) ∧
  pickDaily (sample_item <$> ["2024-05-01 15:00:00"; "2024-05-02 12:00:00"])
    = Normal (sample_item <$> ["2024-05-01 15:00:00"; "2024-05-02 12:00:00"]).
Proof.
  split; [by vm_compute|].
  apply (pickDaily_idempotent
           (sample_item <$> ["2024-05-02 09:00:00"; "2024-05-01 15:00:00";
                             "2024-05-02 12:00:00"; "2024-05-01 21:00:00"])).
  by vm_compute.
Defined.

(** X3: the result depends on the items of each date and on their order
    within the date, not on how the dates are interleaved: two lists that
    hold the same items, in the same order, on every date give the same
    result, or throw the same exception. *)
Theorem pickDaily_by_day (l1 l2 : list ForecastItem) :
  (∀ d, on_day d l1 = on_day d l2) → pickDaily l1 = pickDaily l2.
Proof.
  intros Hdays.
  assert (Forall day_ok l1 ↔ Forall day_ok l2) as Hok.
  { rewrite !Forall_forall. split; intros Hall it Hit; apply Hall.
    - by apply (on_day_elements l2 l1).
    - by apply (on_day_elements l1 l2). }
  unfold pickDaily, daily_results.
  destruct (decide (Forall day_ok l1)) as [Hok1|Hbad1].
  - rewrite !group_by_day_ok by tauto.
    replace (foldl add_item ∅ l2) with (foldl add_item ∅ l1); [done|].
    apply map_eq. intros d. by rewrite !grouped_lookup, Hdays.
  - assert (¬ Forall day_ok l2) as Hbad2 by tauto.
    apply not_Forall_Exists in Hbad1; [|apply _].
    apply not_Forall_Exists in Hbad2; [|apply _].
    destruct (group_by_day_throw l1 ∅) as [e1 He1]; [by intros; apply lookup_empty|done|].
    destruct (group_by_day_throw l2 ∅) as [e2 He2]; [by intros; apply lookup_empty|done|].
    rewrite He1, He2.
    by rewrite (group_by_day_message _ _ _ He1), (group_by_day_message _ _ _ He2).
Qed.

Lemma pickDaily_by_day_witness :
  pickDaily (sample_item <$> ["2024-05-02 09:00:00"; "2024-05-01 15:00:00";
                              "2024-05-02 12:00:00"])
  = pickDaily (sample_item <$> ["2024-05-01 15:00:00"; "2024-05-02 09:00:00";
                                "2024-05-02 12:00:00"]).
Proof.
  apply pickDaily_by_day. intros d. unfold on_day.
  cbn [fmap list_fmap]. rewrite !filter_cons, !filter_nil.
  change (day_of (sample_item "2024-05-02 09:00:00")) with "2024-05-02"%string.
  change (day_of (sample_item "2024-05-02 12:00:00")) with "2024-05-02"%string.
  change (day_of (sample_item "2024-05-01 15:00:00")) with "2024-05-01"%string.
  repeat case_decide; by simplify_eq.
Defined.
End summary.

(** ** More on the recent-city list *)

Section more_recent.
Implicit Types (names before : list string) (n m c : string).

Lemma next_recent_length before n : length (next_recent before n) ≤ 6.
Proof. unfold next_recent. rewrite length_take. lia. Qed.

Lemma NoDup_lower_filter (P : string → Prop) `{!∀ x, Decision (P x)} names :
  NoDup (toLowerCase <$> names) → NoDup (toLowerCase <$> filter P names).
Proof.
  intros Hnodup. eapply sublist_NoDup; [exact Hnodup|apply fmap_sublist, sublist_filter].
Qed.

Lemma next_recent_NoDup before n :
  NoDup (toLowerCase <$> before) → NoDup (toLowerCase <$> next_recent before n).
Proof.
  intros Hnodup. unfold next_recent. rewrite fmap_take.
  eapply sublist_NoDup; [|apply sublist_take].
  rewrite fmap_cons. apply NoDup_cons. split; [|by apply NoDup_lower_filter].
  intros Hin. apply list_elem_of_fmap in Hin as (c & Hc & Hin).
  apply list_elem_of_filter in Hin as [Hne _]. by apply Hne.
Qed.

Lemma next_recent_ok before n : recent_ok before → recent_ok (next_recent before n).
Proof.
  intros [_ Hnodup]. split; [apply next_recent_length|by apply next_recent_NoDup].
Qed.

Lemma filter_same_city names n m :
  same_city n m →
  filter (λ c, ¬ same_city c m) names = filter (λ c, ¬ same_city c n) names.
Proof.
  unfold same_city. intros Hnm. apply list_filter_iff. intros c. by rewrite Hnm.
Qed.

Lemma filter_listed names c :
  NoDup (toLowerCase <$> names) → c ∈ names →
  filter (λ x, ¬ same_city x c) names = filter (λ x, x ≠ c) names ∧
  names ≡ₚ c :: filter (λ x, x ≠ c) names.
Proof.
  induction names as [|x names IH]; intros Hnodup Hin; [by apply elem_of_nil in Hin|].
  rewrite fmap_cons in Hnodup. apply NoDup_cons in Hnodup as [Hx Hnodup].
  rewrite !filter_cons.
  apply elem_of_cons in Hin as [->|Hin].
  - rewrite decide_False by (intros Hne; by apply Hne).
    rewrite decide_False by (intros Hne; by apply Hne).
    assert (Forall (λ y, ¬ same_city y x) names) as Hall.
    { apply Forall_forall. intros y Hy Hsame. apply Hx. unfold same_city in Hsame.
      rewrite <- Hsame. by apply list_elem_of_fmap_2. }
    rewrite !filter_all; [done| |done].
    eapply Forall_impl; [exact Hall|]. intros y Hy ->. by apply Hy.
  - destruct (IH Hnodup Hin) as [IHf IHp].
    assert (¬ same_city x c) as Hne.
    { intros Hsame. apply Hx. rewrite Hsame. by apply list_elem_of_fmap_2. }
    rewrite decide_True by done.
    rewrite decide_True by (intros ->; by apply Hne).
    split; [by rewrite IHf|].
    rewrite (Permutation_swap x c). by constructor.
Qed.

(** Saving a name that the list holds moves it to the front and drops
    nothing. *)
Lemma next_recent_listed before c :
  recent_ok before → c ∈ before →
  next_recent before c = c :: filter (λ x, x ≠ c) before ∧
  next_recent before c ≡ₚ before.
Proof.
  intros [Hlen Hnodup] Hin.
  destruct (filter_listed before c Hnodup Hin) as [Hf Hp].
  assert (next_recent before c = c :: filter (λ x, x ≠ c) before) as ->.
  { rewrite next_recent_cons, Hf. f_equal. apply take_ge.
    apply Permutation_length in Hp. simpl in Hp. lia. }
  done.
Qed.

(** X4: saving a name and then the same name in another case is saving the
    second spelling alone: the first spelling leaves no trace, whatever
    the list was. *)
Theorem next_recent_same_city before n m :
  same_city n m → next_recent (next_recent before n) m = next_recent before m.
Proof.
  intros Hnm. rewrite !next_recent_cons. f_equal.
  rewrite (filter_same_city before n m Hnm), (filter_same_city (n :: _) n m Hnm).
  rewrite filter_cons_False by (intros Hne; by apply Hne).
  rewrite filter_all.
  - by rewrite take_take, Nat.min_id.
  - apply Forall_forall. intros c Hc.
    apply elem_of_take in Hc as (i & Hc & _).
    apply list_elem_of_lookup_2 in Hc.
    by apply list_elem_of_filter in Hc as [? _].
Qed.

Lemma next_recent_same_city_witness :
  next_recent (next_recent ["London"; "paris"; "Oslo"] "Paris") "PARIS"
  = ["PARIS"; "London"; "Oslo"].
Proof.
  rewrite (next_recent_same_city ["London"; "paris"; "Oslo"] "Paris" "PARIS");
    reflexivity.
Defined.
End more_recent.

(** ** More on [runSearch] *)

(** How a search ends, by its four ways out. *)
Lemma runSearch_outcomes KEY net (cityName : string) (w0 : World) :
  (runSearch KEY net cityName w0).1 = Normal tt ∧
  ((trim cityName = EmptyString ∧ (runSearch KEY net cityName w0).2 = w0) ∨
   (trim cityName ≠ EmptyString ∧ has_key KEY = false ∧
    (runSearch KEY net cityName w0).2 =
      {| app := key_missing_app (app w0); localStorage := localStorage w0;
         requests := requests w0; shown := shown w0 |}) ∨
   (trim cityName ≠ EmptyString ∧ has_key KEY = true ∧
    ∃ c e sent seen,
      (runSearch KEY net cityName w0).2 =
        after_search w0 (failed_app (app w0) c (shown_message e)) sent seen ∧
      ((c = city (app w0) ∧ sent = [GeocodeRequest cityName] ∧
        seen = [searching (app w0)] ∧
        (geocode_settles net cityName = Throw e ∨
         geocode_settles net cityName = Normal None ∧ e = Error "City not found")) ∨
       (∃ g, c = Some g ∧ geocode_settles net cityName = Normal (Some g) ∧
             sent = sent_requests cityName g (units (app w0)) ∧
             seen = [searching (app w0); fetching (app w0) g] ∧
             (weather_settles net g (units (app w0)) = Throw e ∨
              ∃ w f, weather_settles net g (units (app w0)) = Normal (w, f) ∧
                     pickDaily (list_ f) = Throw e)))) ∨
   (trim cityName ≠ EmptyString ∧ has_key KEY = true ∧
    ∃ g w f daily,
      geocode_settles net cityName = Normal (Some g) ∧
      weather_settles net g (units (app w0)) = Normal (w, f) ∧
      pickDaily (list_ f) = Normal daily ∧
      (runSearch KEY net cityName w0).2 =
        {| app := found_app (app w0) g w daily;
           localStorage :=
             <[RECENT_KEY := JSON.stringify (next_recent (recent (app w0)) (name g))]>
               (localStorage w0);
           requests := requests w0 ++ sent_requests cityName g (units (app w0));
           shown := shown w0 ++ [searching (app w0); fetching (app w0) g] |})).
Proof.
  destruct (decide (trim cityName = EmptyString)) as [Hblank|Htext].
  { unfold runSearch. rewrite Hblank. split; [done|]. by left. }
  destruct (has_key KEY) eqn:Hkey.
  - rewrite (runSearch_running KEY net cityName w0 Htext Hkey).
    split; [done|]. right. right. cbn [snd].
    destruct (geocode_settles net cityName) as [[g|]|e] eqn:Hg.
    + destruct (weather_settles net g (units (app w0))) as [[w f]|e] eqn:Hw.
      * destruct (pickDaily (list_ f)) as [daily|e] eqn:Hd.
        -- right. do 2 (split; [done|]). by exists g, w, f, daily.
        -- left. do 2 (split; [done|]).
           exists (Some g), e, (sent_requests cityName g (units (app w0))),
             [searching (app w0); fetching (app w0) g].
           split; [done|]. right. exists g. repeat (split; [done|]).
           right. by exists w, f.
      * left. do 2 (split; [done|]).
        exists (Some g), e, (sent_requests cityName g (units (app w0))),
          [searching (app w0); fetching (app w0) g].
        split; [done|]. right. exists g. repeat (split; [done|]). by left.
    + left. do 2 (split; [done|]).
      exists (city (app w0)), (Error "City not found"), [GeocodeRequest cityName],
        [searching (app w0)].
      split; [done|]. left. repeat (split; [done|]). by right.
    + left. do 2 (split; [done|]).
      exists (city (app w0)), e, [GeocodeRequest cityName], [searching (app w0)].
      split; [done|]. left. repeat (split; [done|]). by left.
  - unfold runSearch, truthy. apply String.eqb_neq in Htext as Htext'.
    rewrite Htext', Hkey. split; [done|]. right. left. done.
Qed.

(** The pattern that takes the four ways out apart. *)
Ltac search_outcomes KEY net n w :=
  destruct (runSearch_outcomes KEY net n w)
    as (_ & [(_ & ->)|[(_ & _ & ->)|[(_ & _ & ?c & ?e & ?sent & ?seen & -> & _)|
             (_ & _ & ?g & ?w & ?f & ?daily & _ & _ & ?Hdaily & ->)]]]).

Lemma shown_message_text e : shown_message e ≠ EmptyString.
Proof.
  unfold shown_message, truthy.
  destruct (String.eqb (message e) EmptyString) eqn:He; simpl; [done|].
  by apply String.eqb_neq in He.
Qed.

Lemma runSearch_returns KEY net (cityName : string) (w0 : World) :
  (runSearch KEY net cityName w0).1 = Normal tt ∧
  units (app (runSearch KEY net cityName w0).2) = units (app w0) ∧
  q (app (runSearch KEY net cityName w0).2) = q (app w0).
Proof.
  split; [apply runSearch_outcomes|]. by search_outcomes KEY net cityName w0.
Qed.

Lemma runSearch_sent KEY net (cityName : string) (w0 : World) :
  requests (runSearch KEY net cityName w0).2 =
    requests w0 ++
      if bool_decide (trim cityName = EmptyString) || negb (has_key KEY) then []
      else match geocode_settles net cityName with
           | Normal (Some g) => sent_requests cityName g (units (app w0))
           | _ => [GeocodeRequest cityName]
           end.
Proof.
  destruct (runSearch_outcomes KEY net cityName w0)
    as (_ & [(Hblank & ->)|[(Htext & Hkey & ->)|
             [(Htext & Hkey & c & e & sent & seen & -> & Hhow)|
              (Htext & Hkey & g & w & f & daily & Hg & _ & _ & ->)]]]).
  - rewrite bool_decide_eq_true_2 by done. by rewrite app_nil_r.
  - rewrite Hkey, orb_true_r. by rewrite app_nil_r.
  - rewrite bool_decide_eq_false_2, Hkey by done. simpl.
    destruct Hhow as [(_ & -> & _ & [Hg|[Hg _]])|(g & _ & Hg & -> & _)];
      by rewrite Hg.
  - rewrite bool_decide_eq_false_2, Hkey by done. simpl. by rewrite Hg.
Qed.

Lemma runSearch_keeps_recent_ok KEY net (cityName : string) (w0 : World) :
  recent_ok (recent (app w0)) →
  recent_ok (recent (app (runSearch KEY net cityName w0).2)).
Proof.
  intros Hok. search_outcomes KEY net cityName w0; try done.
  simpl. by apply next_recent_ok.
Qed.

Lemma runSearch_keeps_forecast_ok KEY net (cityName : string) (w0 : World) :
  forecast_ok (app w0) → forecast_ok (app (runSearch KEY net cityName w0).2).
Proof.
  intros Hok. search_outcomes KEY net cityName w0; try done.
  intros out. simpl. intros [= <-].
  by apply pickDaily_results_sorted in Hdaily as (_ & ? & ?).
Qed.

Lemma runSearch_keeps_loading KEY net (cityName : string) (w0 : World) :
  loading (app w0) = false → loading (app (runSearch KEY net cityName w0).2) = false.
Proof. intros Hok. by search_outcomes KEY net cityName w0. Qed.

(** X5: a search that passes the two guards ends, whatever the service
    answers, with [loading] false and in one of two states: no error and a
    city, its weather and its forecast all present; or an error message
    that is not empty and neither weather nor forecast. *)
Theorem runSearch_settles KEY net (cityName : string) (w0 : World) :
  trim cityName ≠ EmptyString → has_key KEY = true →
  let a' := app (runSearch KEY net cityName w0).2 in
  loading a' = false ∧
  ((error a' = None ∧ is_Some (city a') ∧ is_Some (now a') ∧ is_Some (fc a')) ∨
   (∃ msg, error a' = Some msg ∧ msg ≠ EmptyString) ∧ now a' = None ∧ fc a' = None).
Proof.
  intros Htext Hkey a'. unfold a'.
  destruct (runSearch_outcomes KEY net cityName w0)
    as (_ & [(? & _)|[(_ & ? & _)|[(_ & _ & c & e & sent & seen & -> & _)|
             (_ & _ & g & w & f & daily & _ & _ & _ & ->)]]]); [done|congruence| |].
  - simpl. split; [done|]. right. split; [|done].
    exists (shown_message e). split; [done|]. apply shown_message_text.
  - simpl. split; [done|]. left. by eauto.
Qed.

Lemma runSearch_settles_witness :
  error (app (runSearch (Some "k") net_forecast_down "Paris" world_paris).2)
    = Some "Forecast data failed to load"%string ∧
  now (app (runSearch (Some "k") net_forecast_down "Paris" world_paris).2) = None ∧
  loading (app (runSearch (Some "k") net_forecast_down "Paris" world_paris).2) = false.
Proof.
  destruct (runSearch_settles (Some "k") net_forecast_down "Paris" world_paris)
    as [Hloading [(Herror & _)|(_ & Hnow & _)]]; [done|reflexivity|done|].
  split; [reflexivity|]. split; [exact Hnow|exact Hloading].
Defined.

(** ** A search on a storage that may refuse the write *)

(** On a storage that takes every value, [runSearch_in] is [runSearch]. *)
Lemma runSearch_in_accepting KEY net (cityName : string) :
  runSearch_in accepting KEY net cityName = runSearch KEY net cityName.
Proof. reflexivity. Qed.

Section refused.
Variable refuses : Refusal.
Variable KEY : option string.
Variable net : Network.
Variable cityName : string.
Variable w0 : World.

#[local] Arguments geocode_settles : simpl never.
#[local] Arguments current_settles : simpl never.
#[local] Arguments forecast_settles : simpl never.
#[local] Arguments Promise_all : simpl never.
#[local] Arguments pickDaily : simpl never.
#[local] Arguments next_recent : simpl never.
#[local] Arguments JSON.stringify : simpl never.

(** The state after a search whose write was refused with [e]: the search
    has failed, and the recent list is the new one. *)
Lemma runSearch_in_running :
  trim cityName ≠ EmptyString → has_key KEY = true →
  runSearch_in refuses KEY net cityName w0 =
    (Normal tt,
     match geocode_settles net cityName with
     | Throw e =>
         after_search w0 (failed_app (app w0) (city (app w0)) (shown_message e))
           [GeocodeRequest cityName] [searching (app w0)]
     | Normal None =>
         after_search w0 (failed_app (app w0) (city (app w0)) "City not found")
           [GeocodeRequest cityName] [searching (app w0)]
     | Normal (Some g) =>
         let sent := sent_requests cityName g (units (app w0)) in
         let seen := [searching (app w0); fetching (app w0) g] in
         match weather_settles net g (units (app w0)) with
         | Throw e =>
             after_search w0 (failed_app (app w0) (Some g) (shown_message e)) sent seen
         | Normal (w, f) =>
             match pickDaily (list_ f) with
             | Throw e =>
                 after_search w0 (failed_app (app w0) (Some g) (shown_message e))
                   sent seen
             | Normal daily =>
                 let next := next_recent (recent (app w0)) (name g) in
                 match refuses RECENT_KEY (JSON.stringify next) with
                 | Some e =>
                     after_search w0
                       {| units := units (app w0); q := q (app w0);
                          city := Some g; now := None; fc := None;
                          loading := false; error := Some (shown_message e);
                          recent := next |}
                       sent seen
                 | None =>
                     {| app := found_app (app w0) g w daily;
                        localStorage :=
                          <[RECENT_KEY := JSON.stringify next]> (localStorage w0);
                        requests := requests w0 ++ sent;
                        shown := shown w0 ++ seen |}
                 end
             end
         end
     end).
Proof.
  intros Htext Hkey.
  unfold runSearch_in, truthy, try_catch_finally, geocode, current, forecast.
  apply String.eqb_neq in Htext. rewrite Htext, Hkey.
  unfold weather_settles, after_search, sent_requests, saveRecent_in, setItem_in, await,
    eval, throw, setCity, setNow, setFc, setLoading, setError, setRecent, modify, fetch,
    setItem, found_app.
  unfold mbind, M_bind, mret, M_ret. simpl.
  destruct (geocode_settles net cityName) as [[g|]|e]; simpl; [|done|done].
  destruct (Promise_all _ _ _) as [[w f]|e]; simpl.
  - destruct (pickDaily (list_ f)) as [daily|e]; simpl; [|by rewrite <- !app_assoc].
    destruct (refuses RECENT_KEY _) as [e|]; simpl; by rewrite <- !app_assoc.
  - by rewrite <- !app_assoc.
Qed.


(** X13: the stored list and the list on screen.  If reading the storage
    gives the recent list before a search, it does so after it, failed
    searches included, provided the storage takes the text of the list the
    search leaves on screen.  When the search succeeds up to the write and
    the storage refuses it, the search ends as a failed one, with the new
    list on screen and a storage that still reads as the old list. *)
Theorem runSearch_recent_stored :
  recent_stored w0 →
  (refuses RECENT_KEY
     (JSON.stringify (recent (app (runSearch_in refuses KEY net cityName w0).2))) = None →
   recent_stored (runSearch_in refuses KEY net cityName w0).2) ∧
  (∀ g w f daily e,
     trim cityName ≠ EmptyString → has_key KEY = true →
     geocode_settles net cityName = Normal (Some g) →
     weather_settles net g (units (app w0)) = Normal (w, f) →
     pickDaily (list_ f) = Normal daily →
     refuses RECENT_KEY (JSON.stringify (next_recent (recent (app w0)) (name g)))
       = Some e →
     recent (app (runSearch_in refuses KEY net cityName w0).2)
       = next_recent (recent (app w0)) (name g) ∧
     loadRecent (localStorage (runSearch_in refuses KEY net cityName w0).2)
       = Normal (JSON.of_strings (recent (app w0))) ∧
     error (app (runSearch_in refuses KEY net cityName w0).2) = Some (shown_message e) ∧
     now (app (runSearch_in refuses KEY net cityName w0).2) = None ∧
     fc (app (runSearch_in refuses KEY net cityName w0).2) = None).
Proof.
  intros Hstored. split.
  - destruct (decide (trim cityName = EmptyString)) as [Hblank|Htext].
    { unfold runSearch_in. by rewrite Hblank. }
    destruct (has_key KEY) eqn:Hkey.
    + rewrite (runSearch_in_running Htext Hkey). cbn [snd].
      destruct (geocode_settles net cityName) as [[g|]|e]; [|done..].
      destruct (weather_settles net g (units (app w0))) as [[w f]|e]; [|done].
      destruct (pickDaily (list_ f)) as [daily|e]; [|done].
      cbv zeta.
      destruct (refuses RECENT_KEY
                  (JSON.stringify (next_recent (recent (app w0)) (name g))))
        as [e|] eqn:Hrefused.
      * cbn [after_search app recent]. by rewrite Hrefused.
      * intros _. unfold recent_stored, loadRecent, stored_recent.
        cbn [localStorage app recent found_app].
        rewrite lookup_insert_eq.
        assert (truthy (JSON.stringify (next_recent (recent (app w0)) (name g))) = true)
          as -> by done.
        by rewrite parse_stringify.
    + unfold runSearch_in, truthy. apply String.eqb_neq in Htext as Htext'.
      by rewrite Htext', Hkey.
  - intros g w f daily e Htext Hkey Hg Hw Hdaily Hrefused.
    rewrite (runSearch_in_running Htext Hkey). cbn [snd].
    rewrite Hg, Hw, Hdaily. cbv zeta. rewrite Hrefused. done.
Qed.
End refused.

Lemma runSearch_recent_stored_witness :
  recent (app (runSearch_in full_storage (Some "k") net_ok "Lyon" world_paris).2)
    = ["Lyon"; "Paris"] ∧
  loadRecent (localStorage (runSearch_in full_storage (Some "k") net_ok "Lyon"
                              world_paris).2)
    = Normal (JSON.of_strings ["Paris"]) ∧
  error (app (runSearch_in full_storage (Some "k") net_ok "Lyon" world_paris).2)
    = Some "The quota has been exceeded."%string.
Proof.
  destruct (runSearch_recent_stored full_storage (Some "k") net_ok "Lyon" world_paris)
    as [_ Hrefused]; [reflexivity|].
  destruct (Hrefused (sample_geo "Lyon") (sample_now "x")
              (sample_forecast "x" ["2024-05-01 12:00:00"; "2024-05-02 12:00:00"])
              (sample_item <$> ["2024-05-01 12:00:00"; "2024-05-02 12:00:00"])
              (Error "The quota has been exceeded."))
    as (Hrecent & Hload & Herror & _);
    [done|reflexivity|reflexivity|reflexivity|by vm_compute|reflexivity|].
  split; [exact Hrecent|]. split; [exact Hload|exact Herror].
Defined.


(** X8: when both weather calls succeed but the forecast holds a point
    that is not well formed, the search fails as a whole: the exception of
    [pickDaily] becomes the error message, the weather just received is
    withdrawn with the forecast, and neither the recent list nor the
    storage changes. *)
Theorem runSearch_malformed_forecast KEY net (cityName : string) (w0 : World) g w f :
  trim cityName ≠ EmptyString → has_key KEY = true →
  geocode_settles net cityName = Normal (Some g) →
  weather_settles net g (units (app w0)) = Normal (w, f) →
  Exists (λ it, ¬ well_formed it) (list_ f) →
  ∃ e, pickDaily (list_ f) = Throw e ∧
       app (runSearch KEY net cityName w0).2 =
         failed_app (app w0) (Some g) (shown_message e) ∧
       localStorage (runSearch KEY net cityName w0).2 = localStorage w0.
Proof.
  intros Htext Hkey Hg Hw Hbad.
  apply pickDaily_ill_formed in Hbad as [e He]. exists e. split; [done|].
  rewrite (runSearch_running KEY net cityName w0 Htext Hkey).
  by rewrite Hg, Hw, He.
Qed.

Lemma runSearch_malformed_forecast_witness :
  ∃ e, pickDaily (sample_item <$> ["2024-05-01 12:00:00"; "2024-05-09"]) = Throw e ∧
       app (runSearch (Some "k") net_bad_forecast "Oslo" world_paris).2 =
         failed_app (app world_paris) (Some (sample_geo "Oslo")) (shown_message e) ∧
       localStorage (runSearch (Some "k") net_bad_forecast "Oslo" world_paris).2 =
         localStorage world_paris.
Proof.
  apply (runSearch_malformed_forecast (Some "k") net_bad_forecast "Oslo" world_paris
           (sample_geo "Oslo") (sample_now "x")
           (sample_forecast "x" ["2024-05-01 12:00:00"; "2024-05-09"]));
    [done|reflexivity|reflexivity|reflexivity|].
  apply Exists_cons_tl, Exists_cons_hd. intros [_ [time Htime]]. by vm_compute in Htime.
Defined.

(** ** The handlers *)

(** X9: a click on the unit button changes the units and leaves the text
    of the input alone.  Without a city it does nothing else.  With one,
    it searches for the city's own name, not for the text of the input,
    and the weather requests ask for the new units. *)
Theorem toggleUnits_refetch KEY net (w0 : World) :
  let w' := (toggleUnits KEY net w0).2 in
  units (app w') = other_units (units (app w0)) ∧
  q (app w') = q (app w0) ∧
  (city (app w0) = None →
     requests w' = requests w0 ∧ error (app w') = error (app w0) ∧
     now (app w') = now (app w0) ∧ fc (app w') = fc (app w0)) ∧
  (∀ c, city (app w0) = Some c →
     requests w' =
       requests w0 ++
         if bool_decide (trim (name c) = EmptyString) || negb (has_key KEY) then []
         else match geocode_settles net (name c) with
              | Normal (Some g) =>
                  sent_requests (name c) g (other_units (units (app w0)))
              | _ => [GeocodeRequest (name c)]
              end).
Proof.
  intros w'. unfold w', toggleUnits, units_effect, render, setUnits, modify.
  unfold mbind, M_bind, mret, M_ret. cbn [app city fst snd].
  destruct (city (app w0)) as [c|] eqn:Hcity.
  - match goal with |- context [runSearch KEY net (name c) ?w] => set (w1 := w) end.
    destruct (runSearch_returns KEY net (name c) w1) as (Hret & Hunits & Hq).
    pose proof (runSearch_sent KEY net (name c) w1) as Hreq.
    destruct (runSearch KEY net (name c) w1) as [[[]|e] w2]; [|done].
    simpl in *. repeat (split; [done|]). intros c' [= <-]. exact Hreq.
  - simpl. by repeat split.
Qed.

(** X10: a click on a city of the recent list, when the service finds the
    place under that very name, puts the name in the input and moves it to
    the front of the list; the other names keep their order and none is
    lost. *)
Theorem recentClick_reorders KEY net (c : string) (w0 : World) :
  trim c ≠ EmptyString → has_key KEY = true →
  recent_ok (recent (app w0)) → c ∈ recent (app w0) →
  found_as_named net (units (app w0)) c →
  let w' := (recentClick KEY net c w0).2 in
  q (app w') = c ∧ error (app w') = None ∧
  recent (app w') = c :: filter (λ x, x ≠ c) (recent (app w0)) ∧
  recent (app w') ≡ₚ recent (app w0).
Proof.
  intros Htext Hkey Hok Hin (g & w & f & daily & Hg & Hname & Hw & Hdaily) w'.
  unfold w', recentClick, setQ, modify. unfold mbind, M_bind. cbn [fst snd].
  rewrite (runSearch_running KEY net c _ Htext Hkey). cbn [snd app units recent].
  rewrite Hg, Hw, Hdaily. cbn [app q error recent]. rewrite Hname.
  destruct (next_recent_listed (recent (app w0)) c Hok Hin) as [-> Hperm].
  done.
Qed.

Lemma recentClick_reorders_witness :
  recent (app (search_each (Some "k") net_ok ["Paris"; "Lyon"; "Oslo"] initial_world))
    = ["Oslo"; "Lyon"; "Paris"] ∧
  recent (app (recentClick (Some "k") net_ok "Lyon"
                 (search_each (Some "k") net_ok ["Paris"; "Lyon"; "Oslo"]
                    initial_world)).2)
    = ["Lyon"; "Oslo"; "Paris"].
Proof.
  split; [reflexivity|].
  destruct (recentClick_reorders (Some "k") net_ok "Lyon"
              (search_each (Some "k") net_ok ["Paris"; "Lyon"; "Oslo"] initial_world))
    as (_ & _ & Hrecent & _);
    [done|reflexivity| | |apply net_ok_found|exact Hrecent].
  - split; [vm_compute; lia|]. apply (bool_decide_unpack _). by vm_compute.
  - apply (bool_decide_unpack _). by vm_compute.
Defined.



(** X21: a failed search followed by a change of units.  A search that
    fails at the geocoder keeps the city of before; a click on the unit
    button then searches that city again, and, when this search succeeds,
    the error is gone and the weather of the former city is shown in the
    new units, under an input that still holds what was typed. *)
Theorem failed_search_then_units KEY net net' (cityName : string) (w0 : World)
    c g w f daily :
  trim cityName ≠ EmptyString → has_key KEY = true →
  (∀ g, geocode_settles net cityName ≠ Normal (Some g)) →
  city (app w0) = Some c → trim (name c) ≠ EmptyString →
  geocode_settles net' (name c) = Normal (Some g) →
  weather_settles net' g (other_units (units (app w0))) = Normal (w, f) →
  pickDaily (list_ f) = Normal daily →
  let w1 := (runSearch KEY net cityName w0).2 in
  let w2 := (toggleUnits KEY net' w1).2 in
  (∃ msg, error (app w1) = Some msg) ∧ now (app w1) = None ∧
  city (app w1) = Some c ∧
  error (app w2) = None ∧ now (app w2) = Some w ∧ fc (app w2) = Some daily ∧
  city (app w2) = Some g ∧ units (app w2) = other_units (units (app w0)) ∧
  q (app w2) = q (app w0).
Proof.
  intros Htext Hkey Hnone Hcity Hname Hg Hw Hdaily w1 w2.
  assert (∃ msg, w1 = after_search w0 (failed_app (app w0) (Some c) msg)
                        [GeocodeRequest cityName] [searching (app w0)])
    as [msg Hw1].
  { unfold w1. rewrite (runSearch_running KEY net cityName w0 Htext Hkey).
    cbn [snd]. rewrite <- Hcity.
    destruct (geocode_settles net cityName) as [[g'|]|e]; [|by eexists..].
    by destruct (Hnone g'). }
  split; [exists msg; by rewrite Hw1|]. do 2 (split; [by rewrite Hw1|]).
  unfold w2, toggleUnits, units_effect, render, setUnits, modify.
  unfold mbind, M_bind, mret, M_ret. cbn [app city fst snd].
  rewrite Hw1. cbn [after_search failed_app app city].
  rewrite (runSearch_running KEY net' (name c) _ Hname Hkey).
  rewrite Hg. cbv zeta.
  cbn [snd app units q city now fc loading error recent failed_app after_search].
  by rewrite Hw, Hdaily.
Qed.

Lemma failed_search_then_units_witness :
  error (app (runSearch (Some "k") net_no_match "Xyzzy" world_paris).2)
    = Some "City not found"%string ∧
  error (app (toggleUnits (Some "k") net_ok
                (runSearch (Some "k") net_no_match "Xyzzy" world_paris).2).2) = None ∧
  city (app (toggleUnits (Some "k") net_ok
               (runSearch (Some "k") net_no_match "Xyzzy" world_paris).2).2)
    = Some (sample_geo "Paris").
Proof.
  split; [reflexivity|].
  destruct (failed_search_then_units (Some "k") net_no_match net_ok "Xyzzy" world_paris
              (sample_geo "Paris") (sample_geo "Paris") (sample_now "x")
              (sample_forecast "x" ["2024-05-01 12:00:00"; "2024-05-02 12:00:00"])
              (sample_item <$> ["2024-05-01 12:00:00"; "2024-05-02 12:00:00"]))
    as (_ & _ & _ & Herror & _ & _ & Hcity & _);
    [done|reflexivity|done|reflexivity|done|reflexivity|reflexivity|by vm_compute|].
  split; [exact Herror|exact Hcity].
Defined.

(** ** What holds after every event *)

Section events.
Variable KEY : option string.

(** An event changes the input or the units, then searches or not. *)
Lemma handle_cases net ev (w : World) :
  ∃ w1, input_changed w w1 ∧
    ((handle KEY net ev w).2 = w1 ∨
     ∃ n, (handle KEY net ev w).2 = (runSearch KEY net n w1).2).
Proof.
  assert (input_changed w w) as Hsame by (unfold input_changed; by eauto 10).
  destruct ev as [text| | |i|]; unfold handle.
  - destruct (loading (app w)); [by exists w; eauto|].
    eexists. split; [|by left]. unfold input_changed. simpl. by eauto 10.
  - destruct (loading (app w)); exists w; (split; [done|]); [by left|].
    right. by exists (q (app w)).
  - destruct (search_disabled (app w)); exists w; (split; [done|]); [by left|].
    right. by exists (q (app w)).
  - destruct (recent (app w) !! i) as [c|]; [|by exists w; eauto].
    unfold recentClick, setQ, modify. unfold mbind, M_bind.
    eexists. split; [|right; by exists c]. unfold input_changed. simpl. by eauto 10.
  - unfold toggleUnits, units_effect, render, setUnits, modify.
    unfold mbind, M_bind, mret, M_ret. cbn [app city fst snd].
    set (a1 := {| units := other_units (units (app w)); q := q (app w);
                  city := city (app w); now := now (app w); fc := fc (app w);
                  loading := loading (app w); error := error (app w);
                  recent := recent (app w) |}).
    exists {| app := a1; localStorage := localStorage w; requests := requests w;
              shown := shown w ++ [a1] |}.
    split; [unfold input_changed; simpl; by eauto 10|].
    simpl. destruct (city (app w)) as [c|]; [right; by exists (name c)|by left].
Qed.

(** What an input change and a search both keep, every sequence of events
    keeps. *)
Lemma run_invariant (I : World → Prop) :
  (∀ w w1, input_changed w w1 → I w → I w1) →
  (∀ net n w, I w → I (runSearch KEY net n w).2) →
  ∀ events w, I w → I (run KEY events w).
Proof.
  intros Hinput Hsearch events. unfold run.
  induction events as [|[ev net] events IH]; intros w Hw; [done|].
  simpl. apply IH.
  destruct (handle_cases net ev w) as (w1 & Hw1 & [->|[n ->]]).
  - by eapply Hinput.
  - apply Hsearch. by eapply Hinput.
Qed.

(** X12: whatever the user does and whatever the service answers, the
    recent list keeps to six names at most, no two of them equal up to
    case. *)
Theorem run_recent_ok events (w0 : World) :
  recent_ok (recent (app w0)) → recent_ok (recent (app (run KEY events w0))).
Proof.
  apply (run_invariant (λ w, recent_ok (recent (app w)))).
  - intros w w1 (_ & _ & _ & _ & _ & _ & _ & _ & ->). done.
  - intros net n w. apply runSearch_keeps_recent_ok.
Qed.

(** X14: weather and forecast stay paired through every sequence of
    events: no state with exactly one of the two is reached or rendered, if
    none was before. *)
Theorem run_paired events (w0 : World) :
  paired (app w0) ∧ Forall paired (shown w0) →
  paired (app (run KEY events w0)) ∧ Forall paired (shown (run KEY events w0)).
Proof.
  apply (run_invariant (λ w, paired (app w) ∧ Forall paired (shown w))).
  - intros w w1 (_ & _ & Hshown & _ & Hnow & Hfc & _) [Hp Hall].
    assert (paired (app w1)) as Hp1 by (unfold paired; by rewrite Hnow, Hfc).
    split; [done|]. destruct Hshown as [->| ->]; [done|].
    apply Forall_app. split; [done|]. by constructor.
  - intros net n w [Hp Hall]. by apply runSearch_paired.
Qed.

(** X15: the forecast on screen never holds more than five days, and its
    dates increase strictly, through every sequence of events. *)
Theorem run_forecast_ok events (w0 : World) :
  forecast_ok (app w0) → forecast_ok (app (run KEY events w0)).
Proof.
  apply (run_invariant (λ w, forecast_ok (app w))).
  - unfold forecast_ok. intros w w1 (_ & _ & _ & _ & _ & -> & _). done.
  - intros net n w. apply runSearch_keeps_forecast_ok.
Qed.

(** X16: no sequence of events leaves the page loading: once every search
    has settled, [loading] is false again, and the input is live. *)
Theorem run_settled events (w0 : World) :
  loading (app w0) = false → loading (app (run KEY events w0)) = false.
Proof.
  apply (run_invariant (λ w, loading (app w) = false)).
  - intros w w1 (_ & _ & _ & _ & _ & _ & -> & _). done.
  - intros net n w. apply runSearch_keeps_loading.
Qed.
End events.

Lemma run_recent_ok_witness :
  recent_ok (recent (app (run (Some "k") sample_events initial_world))).
Proof.
  apply (run_recent_ok (Some "k") sample_events initial_world).
  split; [simpl; lia|constructor].
Defined.

Lemma run_paired_witness :
  paired (app (run (Some "k") sample_events initial_world)) ∧
  Forall paired (shown (run (Some "k") sample_events initial_world)).
Proof.
  apply (run_paired (Some "k") sample_events initial_world).
  split; [|constructor]. unfold paired. simpl. split; by intros [? ?].
Defined.

Lemma run_forecast_ok_witness :
  forecast_ok (app (run (Some "k") sample_events initial_world)).
Proof.
  apply (run_forecast_ok (Some "k") sample_events initial_world).
  intros daily. simpl. done.
Defined.

Lemma run_settled_witness :
  loading (app (run (Some "k") sample_events initial_world)) = false.
Proof.
  apply (run_settled (Some "k") sample_events initial_world). reflexivity.
Defined.

(** ** The theme *)

Lemma initial_theme_text storage : initial_theme storage ≠ EmptyString.
Proof.
  unfold initial_theme. destruct (storage !! THEME_KEY) as [saved|]; [|done].
  unfold truthy. destruct (String.eqb saved EmptyString) eqn:He; simpl; [done|].
  by apply String.eqb_neq in He.
Qed.

Lemma theme_effect_restores (p : Page) :
  theme p ≠ EmptyString →
  initial_theme (page_storage (theme_effect p)) = theme p ∧
  ("dark" ∈ classList (theme_effect p) ↔ theme p = "dark"%string).
Proof.
  intros Htext. unfold theme_effect, initial_theme. simpl.
  rewrite lookup_insert_eq. unfold truthy.
  apply String.eqb_neq in Htext. rewrite Htext. simpl. split; [done|].
  destruct (decide (theme p = "dark"%string)) as [Hd|Hd].
  - split; [done|]. intros _. apply elem_of_union_r. by apply elem_of_singleton.
  - split; [|done]. intros Hin. apply elem_of_difference in Hin as [_ Hin].
    destruct Hin. by apply elem_of_singleton.
Qed.

(** X17: the theme survives a restart.  After the first render, and after
    every click on the theme button, the storage holds the current theme,
    so that the initializer would read that theme back; the root element
    has the class [dark] exactly when the theme is ["dark"], whatever
    classes it had; and no other storage key is written. *)
Theorem theme_restored (classes : gset string) (storage : gmap string string) (p : Page) :
  let p1 := mount_theme classes storage in
  let p2 := toggle_theme p in
  theme p1 = initial_theme storage ∧
  initial_theme (page_storage p1) = theme p1 ∧
  ("dark" ∈ classList p1 ↔ theme p1 = "dark"%string) ∧
  initial_theme (page_storage p2) = theme p2 ∧
  ("dark" ∈ classList p2 ↔ theme p2 = "dark"%string) ∧
  (∀ key, key ≠ THEME_KEY → page_storage p2 !! key = page_storage p !! key).
Proof.
  intros p1 p2.
  destruct (theme_effect_restores
              {| theme := initial_theme storage; classList := classes;
                 page_storage := storage |}) as [H1 H2];
    [apply initial_theme_text|].
  destruct (theme_effect_restores
              {| theme := other_theme (theme p); classList := classList p;
                 page_storage := page_storage p |}) as [H3 H4].
  { simpl. unfold other_theme. by destruct (decide _). }
  repeat (split; [done|]). intros key Hkey. unfold p2, toggle_theme, theme_effect. simpl.
  by rewrite lookup_insert_ne.
Qed.

(** X18: the theme button.  A click always changes the theme, to
    ["light"] or ["dark"].  Two clicks restore a theme that is one of the
    two.  A theme that is neither, as a foreign text in the storage gives,
    goes to ["dark"] at the first click and never comes back. *)
Theorem toggle_theme_twice (p : Page) :
  let p1 := toggle_theme p in
  let p2 := toggle_theme p1 in
  (theme p1 = "light"%string ∨ theme p1 = "dark"%string) ∧
  theme p1 ≠ theme p ∧
  (theme p = "light"%string ∨ theme p = "dark"%string → theme p2 = theme p) ∧
  (theme p ≠ "light"%string → theme p ≠ "dark"%string →
     theme p1 = "dark"%string ∧ theme p2 = "light"%string).
Proof.
  intros p1 p2. unfold p2, p1, toggle_theme, theme_effect, other_theme. simpl.
  destruct (decide (theme p = "dark"%string)) as [Hd|Hd]; simpl.
  - rewrite Hd. split; [by left|]. split; [done|]. split; [done|]. by intros _ [].
  - split; [by right|]. split; [congruence|]. split; [|done].
    intros [Hl|Hl]; congruence.
Qed.

(** ** [degToCompass] on whole degrees *)

Lemma compass_floor (n : Z) :
  Qfloor (inject_Z n / (45 # 2) + (1 # 2)) = ((4 * n + 45) `div` 90)%Z.
Proof.
  assert (inject_Z n / (45 # 2) + (1 # 2) == (4 * n + 45) # 90)%Q as ->.
  { unfold Qeq, Qdiv, Qmult, Qplus, Qinv, inject_Z. simpl. lia. }
  done.
Qed.

Lemma degToCompass_degrees (n : Z) :
  degToCompass (degrees n) =
    let index := Z.rem ((4 * n + 45) `div` 90) 16 in
    if (index <? 0)%Z then None else compass !! Z.to_nat index.
Proof. unfold degToCompass, degrees. by rewrite compass_floor. Qed.

Lemma compass_lookup (k : Z) :
  (0 ≤ k < 16)%Z → is_Some (compass !! Z.to_nat k).
Proof.
  intros Hk. apply lookup_lt_is_Some. simpl. lia.
Qed.

Lemma same_point_eq a b : same_point a b = true → a = b.
Proof.
  destruct a as [x|], b as [y|]; simpl; try done.
  intros Heq. by apply String.eqb_eq in Heq as ->.
Qed.

(** The rationals and the doubles give the same point for every whole
    number of degrees from -348 to 720. *)
Lemma degToCompass_in_doubles (n : Z) :
  (-348 ≤ n ≤ 720)%Z →
  Double.degToCompass (Double.of_whole n) = degToCompass (degrees n).
Proof.
  intros Hn. apply same_point_eq.
  assert (Forall (λ n, same_point (Double.degToCompass (Double.of_whole n))
                         (degToCompass (degrees n)) = true)
            (seqZ (-348) 1069)) as Hall.
  { apply (bool_decide_unpack _). by vm_compute. }
  rewrite Forall_forall in Hall. apply Hall. apply elem_of_seqZ. lia.
Qed.

(** Far beyond a turn they part: the quotient of 3166593487994891 by 22.5
    is rounded up to a whole number and a half. *)
Lemma degToCompass_beyond :
  Double.degToCompass (Double.of_whole 3166593487994891) = Some "NNE"%string ∧
  degToCompass (degrees 3166593487994891) = Some "N"%string.
Proof. split; by vm_compute. Qed.

(** X19: for a whole number [n] of degrees from 0 to 360, [degToCompass]
    returns a point of the compass, never [undefined]: the point number
    [k] modulo 16, where [k] numbers the sector of 22.5 degrees centred on
    a multiple of 22.5 in which [n] lies
    ([22.5 k - 11.25 <= n < 22.5 k + 11.25]).  A full turn more gives the
    same point. *)
Theorem degToCompass_sector (n : Z) :
  (0 ≤ n ≤ 360)%Z →
  ∃ k point,
    (90 * k - 45 ≤ 4 * n < 90 * k + 45)%Z ∧
    compass !! Z.to_nat (k `mod` 16) = Some point ∧
    degToCompass (degrees n) = Some point ∧
    degToCompass (degrees (n + 360)) = Some point.
Proof.
  intros [Hn _]. set (k := ((4 * n + 45) `div` 90)%Z).
  assert (0 ≤ k)%Z as Hk by (apply Z.div_pos; lia).
  assert (0 ≤ k `mod` 16 < 16)%Z as Hmod by (apply Z.mod_pos_bound; lia).
  destruct (compass_lookup (k `mod` 16) Hmod) as [point Hpoint].
  exists k, point. split; [|split; [done|]].
  - pose proof (Z.div_mod (4 * n + 45) 90 ltac:(lia)) as Hdiv.
    pose proof (Z.mod_pos_bound (4 * n + 45) 90 ltac:(lia)) as Hrem.
    fold k in Hdiv. lia.
  - assert (∀ m, (0 ≤ m)%Z → ((m `div` 90) `mod` 16 = k `mod` 16)%Z →
                 (let index := Z.rem (m `div` 90) 16 in
                  if (index <? 0)%Z then None else compass !! Z.to_nat index)
                 = Some point) as Hsame.
    { intros m Hm Heq. cbv zeta. rewrite Z.rem_mod_nonneg by (try apply Z.div_pos; lia).
      rewrite Heq. destruct (Z.ltb_spec (k `mod` 16) 0); [lia|done]. }
    rewrite !degToCompass_degrees. split; apply Hsame; try lia; [done|].
    replace (4 * (n + 360) + 45)%Z with (4 * n + 45 + 16 * 90)%Z by lia.
    rewrite Z.div_add by lia. fold k.
    rewrite Z.add_mod by lia. rewrite Z.mod_same by lia.
    rewrite Z.add_0_r. by rewrite Z.mod_mod by lia.
Qed.

Lemma degToCompass_sector_witness :
  degToCompass (degrees 349) = Some "N"%string ∧
  degToCompass (degrees 709) = Some "N"%string.
Proof.
  destruct (degToCompass_sector 349) as (k & point & Hk & Hpoint & H1 & H2); [lia|].
  assert (k = 16%Z) as -> by lia.
  vm_compute in Hpoint. injection Hpoint as <-. split; [exact H1|exact H2].
Defined.

(** X20: for a whole number of degrees from -348 to -12, [degToCompass]
    returns [undefined]: the remainder [val % 16] is negative there, and
    the array has no such index. *)
Theorem degToCompass_negative (n : Z) :
  (-348 ≤ n ≤ -12)%Z → degToCompass (degrees n) = None.
Proof.
  intros Hn. rewrite degToCompass_degrees. cbv zeta.
  set (k := ((4 * n + 45) `div` 90)%Z).
  assert (-15 ≤ k ≤ -1)%Z as Hk.
  { pose proof (Z.div_mod (4 * n + 45) 90 ltac:(lia)) as Hdiv.
    pose proof (Z.mod_pos_bound (4 * n + 45) 90 ltac:(lia)) as Hrem.
    fold k in Hdiv. lia. }
  assert (Z.rem k 16 = k) as -> by (apply Z.rem_small_iff; lia).
  destruct (Z.ltb_spec k 0); [done|lia].
Qed.

Lemma degToCompass_negative_witness : degToCompass (degrees (-90)) = None.
Proof. apply (degToCompass_negative (-90)). lia. Defined.
